(** * InMoov UART servo controller: shallow embedding and verification

    The development follows the three source files of the sketch:
    - [AdaHat.h] / [AdaHat.cpp]: the per-channel registry and the two
      PCA9685 boards behind it;
    - [UART_InMoov.ino]: line accumulation, command parsing, dispatch,
      the percentage/degree arithmetic and the main loop.

    Target ABI: AVR (Arduino Uno / Mega), hence [int] is 16 bits, [long]
    and [unsigned long] are 32 bits and [sizeof(int) = 2].  Integers are
    modelled in [Z] with the wrap-around written out (two's complement
    for the signed types, as avr-gcc computes).  The program state
    is threaded explicitly through a small state-and-fault monad; a fault
    stands for C undefined behaviour (null dereference, array access out
    of bounds) and records the state reached just before it. *)

From Stdlib Require Import ZArith Lia Bool Ascii String.
From stdpp Require Import base list.

Open Scope Z_scope.

(** ** Machine integers (AVR) *)

Module MachineInt.

Definition wrap_signed (bits x : Z) : Z :=
  (x + 2 ^ (bits - 1)) mod 2 ^ bits - 2 ^ (bits - 1).

Definition wrap_unsigned (bits x : Z) : Z := x mod 2 ^ bits.

(** [int], [long], [unsigned long], [byte]/[uint8_t], [uint16_t]. *)
Definition to_int : Z -> Z := wrap_signed 16.
Definition to_long : Z -> Z := wrap_signed 32.
Definition to_ulong : Z -> Z := wrap_unsigned 32.
Definition to_byte : Z -> Z := wrap_unsigned 8.
Definition to_uint16 : Z -> Z := wrap_unsigned 16.

Definition sizeof_int : Z := 2.

Definition int_range (x : Z) : Prop := -32768 <= x <= 32767.

End MachineInt.
Import MachineInt.

(** ** Arduino core: [map]

    [map] belongs to the Arduino core (WMath.cpp), not to the sketch:
    [return (x - in_min) * (out_max - out_min) / (in_max - in_min) + out_min;]
    computed in [long], with C's truncating division ([Z.quot]).  For
    [in_max = in_min] the C division is undefined, while [Z.quot] gives
    0: the sketch never calls [map] that way (its divisors are 100, 180
    and the degree range of a resolved pin, see [resolved_pin_range]),
    and the results on [getCalculatedRelativeDegrees] called on its own
    assume [minimum < maximum]. *)

Definition map (x in_min in_max out_min out_max : Z) : Z :=
  to_long
    (Z.quot (to_long (to_long (x - in_min) * to_long (out_max - out_min)))
            (to_long (in_max - in_min))
     + out_min).

(** ** UART_InMoov.ino: configuration constants *)

Definition SERVO_HEAD_TWIST_MIN : Z := 180.
Definition SERVO_HEAD_TWIST_MAX : Z := 580.
Definition SERVO_HEAD_VERT_MIN : Z := 140.
Definition SERVO_HEAD_VERT_MAX : Z := 550.
Definition SERVO_HEAD_MOUTH_MIN : Z := 135.
Definition SERVO_HEAD_MOUTH_MAX : Z := 550.
Definition SERVO_RIGHT_BICEP_TWIST_MIN : Z := 180.
Definition SERVO_RIGHT_BICEP_TWIST_MAX : Z := 580.
Definition SERVO_UNCALIBRATED_DEFAULT_MIN : Z := 150.
Definition SERVO_UNCALIBRATED_DEFAULT_MAX : Z := 600.

Definition PIN_HEAD_TWIST : Z := 0.
Definition PIN_HEAD_MOUTH : Z := 1.
Definition PIN_HEAD_VERT : Z := 8.
Definition PIN_RIGHT_BICEP_TWIST : Z := 2.
Definition PIN_RIGHT_THUMB : Z := 3.
Definition PIN_RIGHT_INDEX : Z := 4.
Definition PIN_RIGHT_MIDDLE : Z := 5.
Definition PIN_RIGHT_RING : Z := 6.
Definition PIN_RIGHT_PINKY : Z := 7.
Definition PIN_RIGHT_WRIST : Z := 9.
Definition PIN_INVERT : Z := PIN_RIGHT_MIDDLE.
Definition PIN_LEFT_THUMB : Z := 15.
Definition PIN_LEFT_INDEX : Z := 16.
Definition PIN_LEFT_MIDDLE : Z := 17.
Definition PIN_LEFT_RING : Z := 18.
Definition PIN_LEFT_PINKY : Z := 19.
Definition PIN_LEFT_WRIST : Z := 20.

Definition HEAD_TWIST_MIN : Z := 40.
Definition HEAD_TWIST_MAX : Z := 100.
Definition HEAD_VERT_MIN : Z := 20.
Definition HEAD_VERT_MAX : Z := 90.
Definition HEAD_MOUTH_MIN : Z := 45.
Definition HEAD_MOUTH_MAX : Z := 90.
Definition RIGHT_BICEP_TWIST_MIN : Z := 45.
Definition RIGHT_BICEP_TWIST_MAX : Z := 120.
Definition RIGHT_THUMB_MIN : Z := 10.
Definition RIGHT_THUMB_MAX : Z := 100.
Definition RIGHT_INDEX_MIN : Z := 0.
Definition RIGHT_INDEX_MAX : Z := 80.
Definition RIGHT_MIDDLE_MIN : Z := 40.
Definition RIGHT_MIDDLE_MAX : Z := 140.
Definition RIGHT_RING_MIN : Z := 20.
Definition RIGHT_RING_MAX : Z := 165.
Definition RIGHT_PINKY_MIN : Z := 45.
Definition RIGHT_PINKY_MAX : Z := 165.
Definition RIGHT_WRIST_MIN : Z := 40.
Definition RIGHT_WRIST_MAX : Z := 120.
Definition LEFT_THUMB_MIN : Z := 10.
Definition LEFT_THUMB_MAX : Z := 100.
Definition LEFT_INDEX_MIN : Z := 0.
Definition LEFT_INDEX_MAX : Z := 80.
Definition LEFT_MIDDLE_MIN : Z := 40.
Definition LEFT_MIDDLE_MAX : Z := 140.
Definition LEFT_RING_MIN : Z := 20.
Definition LEFT_RING_MAX : Z := 165.
Definition LEFT_PINKY_MIN : Z := 45.
Definition LEFT_PINKY_MAX : Z := 165.
Definition LEFT_WRIST_MIN : Z := 40.
Definition LEFT_WRIST_MAX : Z := 120.

Definition numChars : Z := 32.

(** ** UART_InMoov.ino: pure helpers *)

(** [switch (servoPin)] with [return 90] as the fall-through. *)
Definition getServoMin (servoPin : Z) : Z :=
  if servoPin =? PIN_HEAD_TWIST then HEAD_TWIST_MIN
  else if servoPin =? PIN_HEAD_MOUTH then HEAD_MOUTH_MIN
  else if servoPin =? PIN_HEAD_VERT then HEAD_VERT_MIN
  else if servoPin =? PIN_RIGHT_BICEP_TWIST then RIGHT_BICEP_TWIST_MIN
  else if servoPin =? PIN_RIGHT_THUMB then RIGHT_THUMB_MIN
  else if servoPin =? PIN_RIGHT_INDEX then RIGHT_INDEX_MIN
  else if servoPin =? PIN_RIGHT_MIDDLE then RIGHT_MIDDLE_MIN
  else if servoPin =? PIN_RIGHT_RING then RIGHT_RING_MIN
  else if servoPin =? PIN_RIGHT_PINKY then RIGHT_PINKY_MIN
  else if servoPin =? PIN_RIGHT_WRIST then RIGHT_WRIST_MIN
  else if servoPin =? PIN_LEFT_THUMB then LEFT_THUMB_MIN
  else if servoPin =? PIN_LEFT_INDEX then LEFT_INDEX_MIN
  else if servoPin =? PIN_LEFT_MIDDLE then LEFT_MIDDLE_MIN
  else if servoPin =? PIN_LEFT_RING then LEFT_RING_MIN
  else if servoPin =? PIN_LEFT_PINKY then LEFT_PINKY_MIN
  else if servoPin =? PIN_LEFT_WRIST then LEFT_WRIST_MIN
  else 90.

Definition getServoMax (servoPin : Z) : Z :=
  if servoPin =? PIN_HEAD_TWIST then HEAD_TWIST_MAX
  else if servoPin =? PIN_HEAD_MOUTH then HEAD_MOUTH_MAX
  else if servoPin =? PIN_HEAD_VERT then HEAD_VERT_MAX
  else if servoPin =? PIN_RIGHT_BICEP_TWIST then RIGHT_BICEP_TWIST_MAX
  else if servoPin =? PIN_RIGHT_THUMB then RIGHT_THUMB_MAX
  else if servoPin =? PIN_RIGHT_INDEX then RIGHT_INDEX_MAX
  else if servoPin =? PIN_RIGHT_MIDDLE then RIGHT_MIDDLE_MAX
  else if servoPin =? PIN_RIGHT_RING then RIGHT_RING_MAX
  else if servoPin =? PIN_RIGHT_PINKY then RIGHT_PINKY_MAX
  else if servoPin =? PIN_RIGHT_WRIST then RIGHT_WRIST_MAX
  else if servoPin =? PIN_LEFT_THUMB then LEFT_THUMB_MAX
  else if servoPin =? PIN_LEFT_INDEX then LEFT_INDEX_MAX
  else if servoPin =? PIN_LEFT_MIDDLE then LEFT_MIDDLE_MAX
  else if servoPin =? PIN_LEFT_RING then LEFT_RING_MAX
  else if servoPin =? PIN_LEFT_PINKY then LEFT_PINKY_MAX
  else if servoPin =? PIN_LEFT_WRIST then LEFT_WRIST_MAX
  else 90.

(** [strcmp(servo, "..") == 0] chain; [-1] is the error value. *)
Definition getControlPin (servo : string) : Z :=
  if String.eqb servo "HH" then PIN_HEAD_TWIST
  else if String.eqb servo "HV" then PIN_HEAD_VERT
  else if String.eqb servo "HM" then PIN_HEAD_MOUTH
  else if String.eqb servo "RB" then PIN_RIGHT_BICEP_TWIST
  else if String.eqb servo "RT" then PIN_RIGHT_THUMB
  else if String.eqb servo "RI" then PIN_RIGHT_INDEX
  else if String.eqb servo "RM" then PIN_RIGHT_MIDDLE
  else if String.eqb servo "RR" then PIN_RIGHT_RING
  else if String.eqb servo "RP" then PIN_RIGHT_PINKY
  else if String.eqb servo "RW" then PIN_RIGHT_WRIST
  else if String.eqb servo "LT" then PIN_LEFT_THUMB
  else if String.eqb servo "LI" then PIN_LEFT_INDEX
  else if String.eqb servo "LM" then PIN_LEFT_MIDDLE
  else if String.eqb servo "LR" then PIN_LEFT_RING
  else if String.eqb servo "LP" then PIN_LEFT_PINKY
  else if String.eqb servo "LW" then PIN_LEFT_WRIST
  else -1.

(** Parameters and result are [int]; [map] computes in [long]. *)
Definition getCalculatedDegreesFromPercentage (commandValue minimum maximum : Z) : Z :=
  let commandValue := if commandValue >? 100 then 100 else commandValue in
  let commandValue := if commandValue <? 0 then 0 else commandValue in
  to_int (map commandValue 0 100 minimum maximum).

Definition getCalculatedRelativeDegrees (commandValue minimum maximum current : Z) : Z :=
  let current_percent := to_int (map current minimum maximum 0 100) in
  let new_percent := to_int (current_percent + commandValue) in
  let new_percent := if new_percent >? 100 then 100 else new_percent in
  let new_percent := if new_percent <? 0 then 0 else new_percent in
  to_int (map new_percent 0 100 minimum maximum).


(** ** Collaborators: the two PWM boards and the serial port *)

Inductive pwm_board : Type := _pwm0 | _pwm1.

(** One call [board.setPWM(num, on, off)], with the arguments as the
    driver receives them ([uint8_t], [uint16_t], [uint16_t]). *)
Record pwm_call : Type := SetPWM {
  call_board : pwm_board;
  call_num : Z;
  call_on : Z;
  call_off : Z
}.

(** One call on [Serial]: [print(str)], [print(long, DEC)], [println(str)]. *)
Inductive serial_call : Type :=
| Print (s : string)
| PrintDec (v : Z)
| Println (s : string).

(** ** Program state

    The [AdaHat] object [hat] (its four 32-entry arrays), the sketch's
    globals ([commands], [newData], the static [ndx]), the bytes waiting
    in the serial receive queue, the calls made so far on the serial port
    and on the PWM boards, and the number of [millis()] readings taken. *)
Record world : Type := World {
  _servoMins : list Z;
  _servoMaxs : list Z;
  _servoPoss : list Z;
  _lastUpdated : list Z;
  commands : list ascii;
  ndx : Z;
  newData : bool;
  rx : list ascii;
  tx : list serial_call;
  pwm : list pwm_call;
  millis_reads : nat
}.

Definition set_servoMins (v : list Z) (w : world) : world :=
  World v (_servoMaxs w) (_servoPoss w) (_lastUpdated w) (commands w) (ndx w)
        (newData w) (rx w) (tx w) (pwm w) (millis_reads w).
Definition set_servoMaxs (v : list Z) (w : world) : world :=
  World (_servoMins w) v (_servoPoss w) (_lastUpdated w) (commands w) (ndx w)
        (newData w) (rx w) (tx w) (pwm w) (millis_reads w).
Definition set_servoPoss (v : list Z) (w : world) : world :=
  World (_servoMins w) (_servoMaxs w) v (_lastUpdated w) (commands w) (ndx w)
        (newData w) (rx w) (tx w) (pwm w) (millis_reads w).
Definition set_lastUpdated (v : list Z) (w : world) : world :=
  World (_servoMins w) (_servoMaxs w) (_servoPoss w) v (commands w) (ndx w)
        (newData w) (rx w) (tx w) (pwm w) (millis_reads w).
Definition set_commands (v : list ascii) (w : world) : world :=
  World (_servoMins w) (_servoMaxs w) (_servoPoss w) (_lastUpdated w) v (ndx w)
        (newData w) (rx w) (tx w) (pwm w) (millis_reads w).
Definition set_ndx (v : Z) (w : world) : world :=
  World (_servoMins w) (_servoMaxs w) (_servoPoss w) (_lastUpdated w) (commands w) v
        (newData w) (rx w) (tx w) (pwm w) (millis_reads w).
Definition set_newData (v : bool) (w : world) : world :=
  World (_servoMins w) (_servoMaxs w) (_servoPoss w) (_lastUpdated w) (commands w) (ndx w)
        v (rx w) (tx w) (pwm w) (millis_reads w).
Definition set_rx (v : list ascii) (w : world) : world :=
  World (_servoMins w) (_servoMaxs w) (_servoPoss w) (_lastUpdated w) (commands w) (ndx w)
        (newData w) v (tx w) (pwm w) (millis_reads w).
Definition set_tx (v : list serial_call) (w : world) : world :=
  World (_servoMins w) (_servoMaxs w) (_servoPoss w) (_lastUpdated w) (commands w) (ndx w)
        (newData w) (rx w) v (pwm w) (millis_reads w).
Definition set_pwm (v : list pwm_call) (w : world) : world :=
  World (_servoMins w) (_servoMaxs w) (_servoPoss w) (_lastUpdated w) (commands w) (ndx w)
        (newData w) (rx w) (tx w) v (millis_reads w).
Definition set_millis_reads (v : nat) (w : world) : world :=
  World (_servoMins w) (_servoMaxs w) (_servoPoss w) (_lastUpdated w) (commands w) (ndx w)
        (newData w) (rx w) (tx w) (pwm w) v.

(** ** State-and-fault monad *)

Inductive fault : Type :=
| NullDeref      (* dereference of a null pointer *)
| OutOfBounds.   (* array access outside the array *)

Inductive result (A : Type) : Type :=
| Done (a : A) (w : world)
| Fault (f : fault) (w : world).
Arguments Done {A} a w.
Arguments Fault {A} f w.

Definition M (A : Type) : Type := world -> result A.

Definition ret {A} (a : A) : M A := fun w => Done a w.

Definition bind {A B} (c : M A) (k : A -> M B) : M B :=
  fun w => match c w with
           | Done a w' => k a w'
           | Fault f w' => Fault f w'
           end.

Definition raise {A} (f : fault) : M A := fun w => Fault f w.

Notation "x <- c ;; k" := (bind c (fun x => k))
  (at level 100, c at next level, right associativity).
Notation "c ;;; k" := (bind c (fun _ => k))
  (at level 100, right associativity).

Definition get {A} (proj : world -> A) : M A := fun w => Done (proj w) w.
Definition modify (f : world -> world) : M unit := fun w => Done tt (f w).
Definition when (b : bool) (c : M unit) : M unit := if b then c else ret tt.

(** The state a computation stops in, finished or faulted. *)
Definition final_world {A} (r : result A) : world :=
  match r with Done _ w => w | Fault _ w => w end.

Definition faulted {A} (r : result A) : bool :=
  match r with Done _ _ => false | Fault _ _ => true end.

(** [for (int i = lo; ...; i++)] running [n] times. *)
Fixpoint for_range (n : nat) (i : Z) (body : Z -> M unit) : M unit :=
  match n with
  | O => ret tt
  | S n' => body i ;;; for_range n' (i + 1) body
  end.

(** ** C arrays: checked indexing *)

Definition in_bounds {A} (a : list A) (i : Z) : bool :=
  (0 <=? i) && (i <? Z.of_nat (length a)).

Definition array_read {A} (proj : world -> list A) (i : Z) : M A :=
  fun w => match (if in_bounds (proj w) i then proj w !! Z.to_nat i else None) with
           | Some x => Done x w
           | None => Fault OutOfBounds w
           end.

Definition array_write {A} (proj : world -> list A) (upd : list A -> world -> world)
    (i : Z) (x : A) : M unit :=
  fun w => if in_bounds (proj w) i
           then Done tt (upd (<[Z.to_nat i := x]> (proj w)) w)
           else Fault OutOfBounds w.

(** ** Serial and PWM calls *)

Definition Serial_print (s : string) : M unit :=
  modify (fun w => set_tx (tx w ++ [Print s]) w).
Definition Serial_print_dec (v : Z) : M unit :=
  modify (fun w => set_tx (tx w ++ [PrintDec v]) w).
Definition Serial_println (s : string) : M unit :=
  modify (fun w => set_tx (tx w ++ [Println s]) w).

Definition setPWM (b : pwm_board) (num on off : Z) : M unit :=
  modify (fun w => set_pwm (pwm w ++ [SetPWM b (to_byte num) (to_uint16 on) (to_uint16 off)]) w).

(** ** C strings (libc)

    A C string is modelled by the [string] of its characters before the
    terminator.  A null pointer result is [None]. *)

Module CString.

Definition NUL : ascii := Ascii.zero.

Fixpoint char_in (c : ascii) (set : string) : bool :=
  match set with
  | EmptyString => false
  | String d set' => Ascii.eqb c d || char_in c set'
  end.

(** The string stored in a [char] array: the characters up to the
    first terminator, [None] when the array holds no terminator. *)
Fixpoint of_buffer (buf : list ascii) : option string :=
  match buf with
  | [] => None
  | c :: buf' =>
      if Ascii.eqb c NUL then Some EmptyString
      else match of_buffer buf' with
           | Some s => Some (String c s)
           | None => None
           end
  end.

(** [strpbrk(s, accept)]: the suffix of [s] starting at its first
    character that belongs to [accept], or a null pointer. *)
Fixpoint strpbrk (s accept : string) : option string :=
  match s with
  | EmptyString => None
  | String c s' => if char_in c accept then Some s else strpbrk s' accept
  end.

(** [strtok]: skip leading delimiters; a null pointer when nothing is
    left; otherwise the token runs to the next delimiter, which is
    overwritten by a terminator, and scanning resumes just after it. *)
Fixpoint skip_delims (delims s : string) : string :=
  match s with
  | EmptyString => EmptyString
  | String c s' => if char_in c delims then skip_delims delims s' else s
  end.

Fixpoint take_token (delims s : string) : string * string :=
  match s with
  | EmptyString => (EmptyString, EmptyString)
  | String c s' =>
      if char_in c delims then (EmptyString, s')
      else let '(t, r) := take_token delims s' in (String c t, r)
  end.

Definition strtok (delims s : string) : option (string * string) :=
  match skip_delims delims s with
  | EmptyString => None
  | String c s' => Some (take_token delims (String c s'))
  end.

Definition isspace (c : ascii) : bool :=
  let n := Z.of_nat (nat_of_ascii c) in
  (n =? 32) || ((9 <=? n) && (n <=? 13)).

Definition isdigit (c : ascii) : bool :=
  let n := Z.of_nat (nat_of_ascii c) in (48 <=? n) && (n <=? 57).

Fixpoint skip_space (s : string) : string :=
  match s with
  | EmptyString => EmptyString
  | String c s' => if isspace c then skip_space s' else s
  end.

Fixpoint digits_value (acc : Z) (s : string) : Z :=
  match s with
  | EmptyString => acc
  | String c s' =>
      if isdigit c
      then digits_value (acc * 10 + (Z.of_nat (nat_of_ascii c) - 48)) s'
      else acc
  end.

(** [atol]: optional white space, optional sign, decimal digits; the
    accumulation is in [long]. *)
Definition atol (s : string) : Z :=
  match skip_space s with
  | EmptyString => 0
  | String c s' =>
      if Ascii.eqb c "-"%char then to_long (- digits_value 0 s')
      else if Ascii.eqb c "+"%char then to_long (digits_value 0 s')
      else to_long (digits_value 0 (String c s'))
  end.

End CString.
Import CString.

Definition for_lt (lo hi : Z) (body : Z -> M unit) : M unit :=
  for_range (Z.to_nat (hi - lo)) lo body.

(** Read of a local array. *)
Definition local_read (a : list Z) (i : Z) : M Z :=
  fun w => match (if in_bounds a i then a !! Z.to_nat i else None) with
           | Some x => Done x w
           | None => Fault OutOfBounds w
           end.

(** The value of a pointer that the source dereferences unchecked. *)
Definition deref {A} (p : option A) : M A :=
  match p with
  | Some x => ret x
  | None => raise NullDeref
  end.

(** The string held by a [char] array; running off the array without
    meeting a terminator is an out-of-bounds read. *)
Definition deref_buffer (buf : list ascii) : M string :=
  match of_buffer buf with
  | Some s => ret s
  | None => raise OutOfBounds
  end.

Section Program.

(** The clock: [millis_at k] is what the [k]-th call of [millis()]
    returns (an [unsigned long]). *)
Variable millis_at : nat -> Z.

Definition millis : M Z :=
  fun w => Done (millis_at (millis_reads w))
                (set_millis_reads (S (millis_reads w)) w).

(** *** AdaHat.cpp *)

Definition setupServo (position min max : Z) : M unit :=
  if position =? -1 then ret tt
  else
    array_write _servoMins set_servoMins position min;;;
    array_write _servoMaxs set_servoMaxs position max.

Definition setServoDegrees (position degrees : Z) : M unit :=
  currentMin <- array_read _servoMins position;;
  currentMax <- array_read _servoMaxs position;;
  array_write _servoPoss set_servoPoss position degrees;;;
  now <- millis;;
  array_write _lastUpdated set_lastUpdated position now;;;
  let pulseLength := to_int (map degrees 0 180 currentMin currentMax) in
  when (position <? 16) (setPWM _pwm0 position 0 pulseLength);;;
  when (position >=? 16) (setPWM _pwm1 (position - 16) 0 pulseLength).

Definition getServoDegrees (position : Z) : M Z :=
  array_read _servoPoss position.

Definition turnOffIdleServos : M unit :=
  for_lt 0 16 (fun pin =>
    now <- millis;;
    last <- array_read _lastUpdated pin;;
    when (now >? to_ulong (last + 5000))
      (when (pin <? 16) (setPWM _pwm0 pin 0 4096);;;
       when (pin >=? 16) (setPWM _pwm1 (pin - 16) 0 4096))).

(** *** UART_InMoov.ino *)

(** [hat.setup()] only configures the two boards ([begin],
    [setPWMFreq(60)], [delay(10)]); it touches no state of the model. *)
Definition setup : M unit :=
  Serial_println "M:InMoov Arduino Online";;;
  setupServo PIN_HEAD_TWIST SERVO_HEAD_TWIST_MIN SERVO_HEAD_TWIST_MAX;;;
  setupServo PIN_HEAD_VERT SERVO_HEAD_VERT_MIN SERVO_HEAD_VERT_MAX;;;
  setupServo PIN_HEAD_MOUTH SERVO_HEAD_MOUTH_MIN SERVO_HEAD_MOUTH_MAX;;;
  setupServo PIN_RIGHT_BICEP_TWIST SERVO_RIGHT_BICEP_TWIST_MIN SERVO_RIGHT_BICEP_TWIST_MAX;;;
  setupServo PIN_RIGHT_THUMB SERVO_UNCALIBRATED_DEFAULT_MIN SERVO_UNCALIBRATED_DEFAULT_MAX;;;
  setupServo PIN_RIGHT_INDEX SERVO_UNCALIBRATED_DEFAULT_MIN SERVO_UNCALIBRATED_DEFAULT_MAX;;;
  setupServo PIN_RIGHT_MIDDLE SERVO_UNCALIBRATED_DEFAULT_MIN SERVO_UNCALIBRATED_DEFAULT_MAX;;;
  setupServo PIN_RIGHT_RING SERVO_UNCALIBRATED_DEFAULT_MIN SERVO_UNCALIBRATED_DEFAULT_MAX;;;
  setupServo PIN_RIGHT_PINKY SERVO_UNCALIBRATED_DEFAULT_MIN SERVO_UNCALIBRATED_DEFAULT_MAX;;;
  setupServo PIN_RIGHT_WRIST SERVO_UNCALIBRATED_DEFAULT_MIN SERVO_UNCALIBRATED_DEFAULT_MAX.

(** One pass of the [while] body for the byte [rc]. *)
Definition recv_byte (rc : ascii) : M unit :=
  let endMarker : ascii := "010"%char in
  i <- get ndx;;
  if negb (Ascii.eqb rc endMarker) then
    array_write commands set_commands i rc;;;
    let i := to_byte (i + 1) in
    let i := if i >=? numChars then to_byte (numChars - 1) else i in
    modify (set_ndx i)
  else
    array_write commands set_commands i NUL;;;
    modify (set_ndx 0);;;
    modify (set_newData true).

(** [while (Serial.available() > 0 && newData == false)], by recursion
    on the bytes waiting in the receive queue. *)
Fixpoint recv_loop (avail : list ascii) : M unit :=
  match avail with
  | [] => ret tt
  | rc :: avail' =>
      nd <- get newData;;
      if nd then ret tt
      else modify (set_rx avail');;; recv_byte rc;;; recv_loop avail'
  end.

Definition recvWithEndMarker : M unit :=
  avail <- get rx;; recv_loop avail.

Definition default_pins : list Z :=
  [ PIN_HEAD_TWIST; PIN_HEAD_VERT; PIN_HEAD_MOUTH; PIN_RIGHT_BICEP_TWIST;
    PIN_RIGHT_THUMB; PIN_RIGHT_INDEX; PIN_RIGHT_MIDDLE; PIN_RIGHT_RING;
    PIN_RIGHT_PINKY; PIN_RIGHT_WRIST ].

Definition setDefaultPositions : M unit :=
  let pinAmount := 10 in
  let pins := default_pins in
  let sizeof_pins := pinAmount * sizeof_int in
  for_lt 0 (sizeof_pins - 1) (fun i =>
    pin <- local_read pins i;;
    let servo_min := getServoMin pin in
    let servo_max := getServoMax pin in
    setServoDegrees pin (getCalculatedDegreesFromPercentage 50 servo_min servo_max)).

(** [value] arrives as an [int]. *)
Definition sendCommand (servo : string) (value : Z) (relative : bool) : M unit :=
  let control_pin := getControlPin servo in
  if control_pin >? -1 then
    let servo_min := getServoMin control_pin in
    let servo_max := getServoMax control_pin in
    let value := if control_pin =? PIN_INVERT then to_int (100 - value) else value in
    if negb relative then
      setServoDegrees control_pin
        (getCalculatedDegreesFromPercentage value servo_min servo_max)
    else
      d <- getServoDegrees control_pin;;
      when (d =? -1)
        (setServoDegrees control_pin
           (getCalculatedDegreesFromPercentage 50 servo_min servo_max));;;
      current <- getServoDegrees control_pin;;
      setServoDegrees control_pin
        (getCalculatedRelativeDegrees value servo_min servo_max current)
  else
    Serial_print "E100: Unsupported Servo: ";;;
    Serial_println servo.

(** [servo[0] = command[0]; servo[1] = command[1]; servo[2] = '\0'].
    A one-character token has its terminator at [command[1]]. *)
Definition servo_of (command : string) : string :=
  match command with
  | String c0 (String c1 _) => String c0 (String c1 EmptyString)
  | String c0 EmptyString => String c0 EmptyString
  | EmptyString => EmptyString
  end.

(** The body of the [while (command != NULL)] loop. *)
Definition process_command (command : string) : M unit :=
  let servo := servo_of command in
  (* [value_str[0]] reads through the pointer [strpbrk] returned *)
  value_str <- deref (strpbrk command "+-1234567890");;
  let first := match value_str with String c _ => c | EmptyString => NUL end in
  let relative := Ascii.eqb first "+"%char || Ascii.eqb first "-"%char in
  let value := atol value_str in
  Serial_print "M:Received command - ";;;
  Serial_print servo;;;
  when relative (Serial_print " relative");;;
  Serial_print " value ";;;
  Serial_print_dec value;;;
  Serial_println "%";;;
  if String.eqb servo "DP" then setDefaultPositions
  else sendCommand servo (to_int value) relative.

(** [command = strtok(NULL, " ")] until null.  Each token consumes at
    least one character of the line, so [fuel] = length of the line
    is never exhausted (see [command_loop_fuel]). *)
Fixpoint command_loop (fuel : nat) (command : option (string * string)) : M unit :=
  match command with
  | None => ret tt
  | Some (tok, rest) =>
      match fuel with
      | O => ret tt
      | S fuel' =>
          process_command tok;;;
          command_loop fuel' (strtok " " rest)
      end
  end.

(** The terminators that [strtok] writes over the delimiters are not
    recorded in [commands]: the buffer is read again only after
    [recvWithEndMarker] has rewritten it from index 0 up to a fresh
    terminator, and no result below speaks of the buffer's content after
    tokens were cut from it. *)
Definition processCommands : M unit :=
  nd <- get newData;;
  if nd then
    Serial_print "C:";;;
    buf <- get commands;;
    line <- deref_buffer buf;;
    Serial_println line;;;
    command_loop (String.length line) (strtok (String " " (String "010"%char EmptyString)) line);;;
    modify (set_newData false)
  else ret tt.

Definition loop : M unit :=
  recvWithEndMarker;;;
  processCommands;;;
  turnOffIdleServos.

End Program.

(** ** Initial state

    The in-class initialisers of [AdaHat.h] and the zero-initialised
    globals of the sketch. *)
Definition initial_world : world :=
  {| _servoMins := replicate 32 375;
     _servoMaxs := replicate 32 375;
     _servoPoss := replicate 32 (-1);
     _lastUpdated := replicate 32 0;
     commands := replicate 32 NUL;
     ndx := 0;
     newData := false;
     rx := [];
     tx := [];
     pwm := [];
     millis_reads := 0 |}.

(** The state in which [loop] first runs. *)
Definition booted_world : world :=
  final_world (setup initial_world).

(** Bytes arriving on the serial line. *)
Definition receive (bytes : string) (w : world) : world :=
  set_rx (rx w ++ list_ascii_of_string bytes) w.

Definition LF : string := String "010"%char EmptyString.

(** A clock ticking once per reading, for concrete runs. *)
Definition tick_clock (n : nat) : Z := Z.of_nat n.

(** The spec's rounding: the integer nearest to [n / d] (ties upward). *)
Definition round_div (n d : Z) : Z := (2 * n + d) / (2 * d).

(** [r] is an integer nearest to the rational [n / d], whatever the
    treatment of ties. *)
Definition nearest_to (r n d : Z) : Prop := 2 * Z.abs (d * r - n) <= d.

Definition clamp_percent (p : Z) : Z := Z.max 0 (Z.min 100 p).

(** The kind of fault a computation stopped on, if any. *)
Definition fault_of {A} (r : result A) : option fault :=
  match r with Done _ _ => None | Fault f _ => Some f end.

(** One complete line arrives and is taken up by the first two stages
    of [loop]. *)
Definition handle_line (clk : nat -> Z) (line : string) : M unit :=
  modify (receive (line ++ LF));;;
  recvWithEndMarker;;;
  processCommands clk.

(** A clock that stands at 0 during the first 17 readings and at 6000
    afterwards. *)
Definition idle_clock (n : nat) : Z := if (n <=? 16)%nat then 0 else 6000.

(** The characters that start a value field (the [strpbrk] set). *)
Definition value_chars : string := "+-1234567890".

(** The codes of the code-to-channel table of [getControlPin]. *)
Definition channel_codes : list string :=
  [ "HH"; "HV"; "HM"; "RB"; "RT"; "RI"; "RM"; "RR"; "RP"; "RW";
    "LT"; "LI"; "LM"; "LR"; "LP"; "LW" ]%string.

(** The acknowledgement [processCommands] prints for one token. *)
Definition acknowledgement (servo : string) (relative : bool) (value : Z)
  : list serial_call :=
  [Print "M:Received command - "; Print servo]
  ++ (if relative then [Print " relative"] else [])
  ++ [Print " value "; PrintDec value; Println "%"].

(** The E100 response of [sendCommand]: one line carrying the code. *)
Definition unsupported_response (servo : string) : list serial_call :=
  [Print "E100: Unsupported Servo: "; Println servo].

(** A value field starts with a sign: the command is relative. *)
Definition starts_with_sign (value_str : string) : bool :=
  match value_str with
  | String c _ => Ascii.eqb c "+"%char || Ascii.eqb c "-"%char
  | EmptyString => false
  end.

(** The line buffer has its 32 slots and the write index lies inside. *)
Definition buffer_ok (w : world) : Prop :=
  length (commands w) = 32%nat /\ 0 <= ndx w < numChars.

(** The end-of-line marker of [recvWithEndMarker] (line feed). *)
Definition endMarker : ascii := "010"%char.

(** The main program: [setup] has run; bytes arrive in chunks, and
    [loop] runs once after each chunk (an empty chunk is a cycle without
    input).  A fault ends the run: what the program does after undefined
    behaviour is not described, so results about whole runs are stated
    for the runs that end without fault. *)
Fixpoint run (clk : nat -> Z) (chunks : list string) : M unit :=
  match chunks with
  | [] => ret tt
  | bytes :: chunks' => modify (receive bytes);;; loop clk;;; run clk chunks'
  end.

(** ** Registry invariant *)

(** [lastAngle] is the unset sentinel or a degree in [0,180]. *)
Definition angle_ok (a : Z) : Prop := a = -1 \/ 0 <= a <= 180.

(** Per channel, [minPulse <= maxPulse] and [lastAngle] is well-formed. *)
Definition registry_inv (w : world) : Prop :=
  Forall2 Z.le (_servoMins w) (_servoMaxs w) /\ Forall angle_ok (_servoPoss w).

(** No stored timestamp lies ahead of the clock's next reading. *)
Definition stamps_past (clk : nat -> Z) (w : world) : Prop :=
  Forall (fun t => t <= clk (millis_reads w)) (_lastUpdated w).

(** Channel by channel, the timestamps of [w'] are not before those of [w]. *)
Definition stamps_le (w w' : world) : Prop :=
  length (_lastUpdated w') = length (_lastUpdated w) /\
  forall i t t', _lastUpdated w !! i = Some t -> _lastUpdated w' !! i = Some t' -> t <= t'.

(** The clock never runs backwards. *)
Definition clock_monotone (clk : nat -> Z) : Prop := forall n, clk n <= clk (S n).

(** The invariant of a run that started in [w0]. *)
Definition registry_ok (clk : nat -> Z) (w0 w : world) : Prop :=
  registry_inv w /\ stamps_past clk w /\ stamps_le w0 w.

(** A clock reading that may be stored as a timestamp. *)
Definition fresh_stamp (clk : nat -> Z) (now : Z) (w : world) : Prop :=
  Forall (fun t => t <= now) (_lastUpdated w) /\ now <= clk (millis_reads w).

(** Hoare triples of the monad; a fault must leave the invariant [I]. *)
Definition triple {A} (I P : world -> Prop) (c : M A) (Q : A -> world -> Prop) : Prop :=
  forall w, P w ->
    match c w with
    | Done a w' => Q a w'
    | Fault _ w' => I w'
    end.

Definition preserves {A} (I : world -> Prop) (c : M A) : Prop :=
  triple I I c (fun _ => I).

(** What bounds the iterations of the token loop. *)
Definition tokens_bound (command : option (string * string)) : nat :=
  match command with
  | None => 0
  | Some (_, rest) => S (String.length rest)
  end.

(** The four registry arrays have their 32 entries. *)
Definition arrays_ok (w : world) : Prop :=
  length (_servoMins w) = 32%nat /\ length (_servoMaxs w) = 32%nat /\
  length (_servoPoss w) = 32%nat /\ length (_lastUpdated w) = 32%nat.

(** [c] returns normally from every state satisfying [P], and keeps [P]. *)
Definition returns {A} (P : world -> Prop) (c : M A) : Prop :=
  forall w, P w -> exists a w', c w = Done a w' /\ P w'.

(** What a watchdog sweep started in [w0] may have done by [w]: nothing
    but calls that switch off outputs 0..15 of the first board. *)
Definition swept (w0 w : world) : Prop :=
  _lastUpdated w = _lastUpdated w0 /\
  _servoPoss w = _servoPoss w0 /\
  exists calls,
    pwm w = pwm w0 ++ calls /\
    Forall (fun c => call_board c = _pwm0 /\ 0 <= call_num c < 16 /\ call_off c = 4096) calls.

(** The call by which [setServoDegrees] sends [pulseLength] for a
    channel: positions below 16 go to the first board, the others to the
    second board at [position - 16]. *)
Definition servo_call (position pulseLength : Z) : pwm_call :=
  if position <? 16
  then SetPWM _pwm0 (to_byte position) (to_uint16 0) (to_uint16 pulseLength)
  else SetPWM _pwm1 (to_byte (position - 16)) (to_uint16 0) (to_uint16 pulseLength).

(** The state [setServoDegrees] leaves for an in-range position whose
    calibration is [mn], [mx]. *)
Definition after_setServoDegrees (clk : nat -> Z) (position degrees mn mx : Z)
    (w : world) : world :=
  {| _servoMins := _servoMins w;
     _servoMaxs := _servoMaxs w;
     _servoPoss := <[Z.to_nat position := degrees]> (_servoPoss w);
     _lastUpdated := <[Z.to_nat position := clk (millis_reads w)]> (_lastUpdated w);
     commands := commands w;
     ndx := ndx w;
     newData := newData w;
     rx := rx w;
     tx := tx w;
     pwm := pwm w ++ [servo_call position (to_int (map degrees 0 180 mn mx))];
     millis_reads := S (millis_reads w) |}.

(** Every channel's calibration is an ordered pair of non-negative [int]s. *)
Definition calibrated (w : world) : Prop :=
  Forall2 (fun mn mx => 0 <= mn /\ mn <= mx /\ mx <= 32767) (_servoMins w) (_servoMaxs w).

(** The channel a PWM call addresses. *)
Definition channel_of_call (c : pwm_call) : Z :=
  match call_board c with
  | _pwm0 => call_num c
  | _pwm1 => call_num c + 16
  end.

(** A call that switches the output off, or whose pulse lies within the
    calibrated range that [w0] holds for the addressed channel. *)
Definition safe_call (w0 : world) (c : pwm_call) : Prop :=
  call_off c = 4096 \/
  exists mn mx,
    _servoMins w0 !! Z.to_nat (channel_of_call c) = Some mn /\
    _servoMaxs w0 !! Z.to_nat (channel_of_call c) = Some mx /\
    mn <= call_off c <= mx.

(** Since [w0]: the calibration is unchanged and only safe calls were made. *)
Definition pulses_safe (w0 w : world) : Prop :=
  arrays_ok w /\
  _servoMins w = _servoMins w0 /\
  _servoMaxs w = _servoMaxs w0 /\
  exists calls, pwm w = pwm w0 ++ calls /\ Forall (safe_call w0) calls.

(** Since [w0]: the receiver's state (line buffer, index, receive queue)
    is unchanged. *)
Definition receiver_untouched (w0 w : world) : Prop :=
  commands w = commands w0 /\ ndx w = ndx w0 /\ rx w = rx w0.

(** The switch-off call, if any, that the sweep started in [w0] makes for
    [pin]: the clock reading compared is the one taken for that pin. *)
Definition idle_call (clk : nat -> Z) (w0 : world) (pin : Z) : list pwm_call :=
  match _lastUpdated w0 !! Z.to_nat pin with
  | Some last =>
      if clk (millis_reads w0 + Z.to_nat pin)%nat >? to_ulong (last + 5000)
      then [SetPWM _pwm0 pin 0 4096]
      else []
  | None => []
  end.

(** * Sanity checks of the embedding *)

Example map_head_twist_90 : getCalculatedDegreesFromPercentage 90 40 100 = 94.
Proof. reflexivity. Qed.
Example strtok_two : strtok " " "HH90 RB+10" = Some ("HH90", "RB+10")%string.
Proof. reflexivity. Qed.
Example atol_neg : atol "-15x" = -15.
Proof. reflexivity. Qed.
Example strpbrk_DP_is_null : strpbrk "DP" "+-1234567890" = None.
Proof. reflexivity. Qed.

(** * Machine arithmetic *)

Lemma wrap_signed_small bits x :
  0 < bits -> - 2 ^ (bits - 1) <= x < 2 ^ (bits - 1) -> wrap_signed bits x = x.
Proof.
  intros Hb Hx. unfold wrap_signed.
  assert (H2 : 2 ^ bits = 2 * 2 ^ (bits - 1)).
  { replace bits with (Z.succ (bits - 1)) at 1 by lia.
    rewrite Z.pow_succ_r by lia. reflexivity. }
  rewrite Z.mod_small by lia. lia.
Qed.

Lemma to_long_small x : -2147483648 <= x <= 2147483647 -> to_long x = x.
Proof. intros H. apply wrap_signed_small; simpl; lia. Qed.

Lemma to_int_small x : int_range x -> to_int x = x.
Proof. unfold int_range. intros H. apply wrap_signed_small; simpl; lia. Qed.

(** [map] from the percentage domain, for a clamped percentage and
    [int] bounds in order: no wrap-around occurs and the truncating
    division is a floor. *)
Lemma map_percent p mn mx :
  0 <= p <= 100 -> int_range mn -> int_range mx -> mn <= mx ->
  map p 0 100 mn mx = mn + (mx - mn) * p / 100.
Proof.
  unfold int_range, map. intros Hp Hmn Hmx Hle.
  assert (Hprod : 0 <= p * (mx - mn) <= 100 * 65535) by nia.
  rewrite (to_long_small (p - 0)) by lia.
  rewrite (to_long_small (mx - mn)) by lia.
  rewrite (to_long_small (100 - 0)) by lia.
  replace (p - 0) with p by lia. replace (100 - 0) with 100 by lia.
  rewrite (to_long_small (p * (mx - mn))) by lia.
  rewrite Z.quot_div_nonneg by lia.
  assert (Hq : 0 <= p * (mx - mn) / 100 <= mx - mn).
  { split; [apply Z.div_pos; lia|].
    apply Z.div_le_upper_bound; nia. }
  rewrite to_long_small by lia.
  rewrite (Z.mul_comm p). lia.
Qed.

Lemma map_percent_bounds p mn mx :
  0 <= p <= 100 -> int_range mn -> int_range mx -> mn <= mx ->
  mn <= map p 0 100 mn mx <= mx.
Proof.
  intros Hp Hmn Hmx Hle. rewrite map_percent by assumption.
  assert (0 <= (mx - mn) * p / 100 <= mx - mn); [|lia].
  split; [apply Z.div_pos; nia|].
  apply Z.div_le_upper_bound; nia.
Qed.

Lemma clamp_percent_spec p :
  (if (if p >? 100 then 100 else p) <? 0 then 0 else if p >? 100 then 100 else p)
  = clamp_percent p.
Proof.
  unfold clamp_percent.
  destruct (Z.gtb_spec p 100); destruct (Z.ltb_spec 100 0);
    try destruct (Z.ltb_spec p 0); lia.
Qed.

Lemma clamp_percent_range p : 0 <= clamp_percent p <= 100.
Proof. unfold clamp_percent. lia. Qed.

Lemma getCalculatedDegreesFromPercentage_bounds v mn mx :
  int_range mn -> int_range mx -> mn <= mx ->
  mn <= getCalculatedDegreesFromPercentage v mn mx <= mx.
Proof.
  intros Hmn Hmx Hle. unfold getCalculatedDegreesFromPercentage.
  rewrite clamp_percent_spec.
  pose proof (map_percent_bounds (clamp_percent v) mn mx
                (clamp_percent_range v) Hmn Hmx Hle) as Hb.
  rewrite to_int_small; [exact Hb|]. unfold int_range in *. lia.
Qed.

Lemma getCalculatedRelativeDegrees_bounds v mn mx cur :
  int_range mn -> int_range mx -> mn <= mx ->
  mn <= getCalculatedRelativeDegrees v mn mx cur <= mx.
Proof.
  intros Hmn Hmx Hle. unfold getCalculatedRelativeDegrees.
  set (np := to_int (to_int (map cur mn mx 0 100) + v)).
  rewrite clamp_percent_spec.
  pose proof (map_percent_bounds (clamp_percent np) mn mx
                (clamp_percent_range np) Hmn Hmx Hle) as Hb.
  rewrite to_int_small; [exact Hb|]. unfold int_range in *. lia.
Qed.

(** * C6: percentage-to-range mapping *)

(** C6, as stated, fails: for the head-twist range [40,100] and 33 percent
    the code returns 59, while 40 + (60 * 33) / 100 = 40 + 19.8 rounds to
    60; 59 is not a nearest integer under any tie rule. *)
Lemma C6_rounding_counterexample :
  40 <= 100 /\
  getCalculatedDegreesFromPercentage 33 40 100 = 59 /\
  40 + round_div ((100 - 40) * clamp_percent 33) 100 = 60 /\
  ~ nearest_to (getCalculatedDegreesFromPercentage 33 40 100 - 40)
               ((100 - 40) * clamp_percent 33) 100.
Proof.
  repeat split; try reflexivity; try lia.
  unfold nearest_to. vm_compute. intros H. apply H. reflexivity.
Qed.

(** C6 (amended): for every percentage [p] and [int] bounds [mn <= mx],
    the mapping clamps [p] to [0,100] and returns
    [mn + floor((mx - mn) * p' / 100)]: the quotient is truncated, not
    rounded to nearest. *)
Theorem C6_fromPercentage_truncates p mn mx :
  int_range mn -> int_range mx -> mn <= mx ->
  getCalculatedDegreesFromPercentage p mn mx
  = mn + (mx - mn) * clamp_percent p / 100.
Proof.
  intros Hmn Hmx Hle. unfold getCalculatedDegreesFromPercentage.
  rewrite clamp_percent_spec.
  pose proof (map_percent_bounds (clamp_percent p) mn mx
                (clamp_percent_range p) Hmn Hmx Hle) as Hb.
  rewrite to_int_small by (unfold int_range in *; lia).
  apply map_percent; auto using clamp_percent_range.
Qed.

Lemma C6_fromPercentage_truncates_witness :
  getCalculatedDegreesFromPercentage 33 40 100
  = 40 + (100 - 40) * clamp_percent 33 / 100.
Proof.
  apply (C6_fromPercentage_truncates 33 40 100); unfold int_range; lia.
Defined.

(** * C3: the scenario [HH90] *)

(** C3, as stated, fails: the pulse sent for [HH90] is not 380. *)
Lemma C3_HH90_counterexample :
  pwm (final_world (handle_line tick_clock "HH90" booted_world))
  <> [SetPWM _pwm0 PIN_HEAD_TWIST 0 380].
Proof. vm_compute. intros H. discriminate H. Qed.

(** C3 (amended): with channel HH calibrated to the pulse range [180,580],
    processing the line [HH90] makes exactly one sink call,
    [setPWM(0, 0, 388)]: 90 is a percentage of the channel's degree range
    [40,100], giving 40 + 60 * 90 / 100 = 94 degrees, and the pulse is
    180 + 400 * 94 / 180 = 388 (both quotients truncated). *)
Theorem C3_HH90_pulse_388 (clk : nat -> Z) :
  let r := handle_line clk "HH90" booted_world in
  _servoMins booted_world !! 0%nat = Some 180 /\
  _servoMaxs booted_world !! 0%nat = Some 580 /\
  fault_of r = None /\
  _servoPoss (final_world r) !! 0%nat = Some 94 /\
  94 = 40 + (100 - 40) * 90 / 100 /\
  388 = 180 + (580 - 180) * 94 / 180 /\
  pwm (final_world r) = [SetPWM _pwm0 PIN_HEAD_TWIST 0 388].
Proof. vm_compute. repeat split; reflexivity. Qed.

(** * C1: the idle watchdog *)

(** C1 (code evaluated at the failing input): channel 16 (LI) is commanded
    at time 0; at time 6000 it is idle for more than 5000, yet the sweep
    of that cycle calls the sink for outputs 0..15 of the first board
    only, and nothing is ever sent to the second board with the disabled
    pulse. *)
Theorem C1_sweep_stops_at_16 :
  let w1 := final_world (loop idle_clock (receive ("LI50" ++ LF) booted_world)) in
  let r2 := loop idle_clock w1 in
  getControlPin "LI" = 16 /\
  _lastUpdated w1 !! 16%nat = Some 0 /\
  idle_clock (millis_reads w1) = 6000 /\
  fault_of r2 = None /\
  drop (length (pwm w1)) (pwm (final_world r2))
  = (fun pin => SetPWM _pwm0 pin 0 4096) <$> seqZ 0 16 /\
  existsb (fun c => match call_board c with _pwm1 => call_off c =? 4096 | _pwm0 => false end)
          (pwm (final_world r2)) = false /\
  _lastUpdated (final_world r2) = _lastUpdated w1.
Proof. vm_compute. repeat split; reflexivity. Qed.

(** * C2: inversion *)

(** C2 (code evaluated at the failing input): on the inverted channel RM
    (degree range [40,140], unset, so the baseline is 90 degrees = 50%),
    the relative command [RM+10] is applied with delta 100 - 10 = 90 and
    drives the channel to 140 degrees; the delta 10 unchanged would give
    100 degrees.  [RM-10] lands on 140 degrees as well. *)
Theorem C2_relative_command_is_inverted (clk : nat -> Z) :
  let r := handle_line clk "RM+10" booted_world in
  let r' := handle_line clk "RM-10" booted_world in
  getControlPin "RM" = PIN_INVERT /\
  fault_of r = None /\
  _servoPoss (final_world r) !! 5%nat = Some 140 /\
  getCalculatedRelativeDegrees (100 - 10) 40 140 90 = 140 /\
  getCalculatedRelativeDegrees 10 40 140 90 = 100 /\
  _servoPoss (final_world r') !! 5%nat = Some 140.
Proof. vm_compute. repeat split; reflexivity. Qed.

(** * C7 and C10: default positions *)

Lemma for_range_faults n : forall i (body : Z -> M unit) j,
  i <= j < i + Z.of_nat n ->
  (forall w, faulted (body j w) = true) ->
  forall w, faulted (for_range n i body w) = true.
Proof.
  induction n as [|n IH]; intros i body j Hj Hbody w; [lia|].
  cbn [for_range]. unfold bind.
  destruct (body i w) as [[] w'|f w'] eqn:E; [|reflexivity].
  destruct (Z.eq_dec i j) as [->|Hne].
  - specialize (Hbody w). rewrite E in Hbody. discriminate.
  - apply (IH (i + 1) body j); [lia|assumption].
Qed.

(** C7 (code evaluated at the failing input): from the state after
    [setup], the handler sets the ten listed channels to the angle at 50%
    of their degree range (ten sink calls) and then goes on to index 10
    of the ten-element pin list, an access out of bounds; the line [DP]
    itself is stopped earlier, by the null value pointer. *)
Theorem C7_default_positions_overrun (clk : nat -> Z) :
  let r := setDefaultPositions clk booted_world in
  fault_of r = Some OutOfBounds /\
  take 10 (_servoPoss (final_world r)) = [70; 67; 82; 55; 40; 90; 92; 105; 55; 80] /\
  drop 10 (_servoPoss (final_world r)) = replicate 22 (-1) /\
  length (pwm (final_world r)) = 10%nat /\
  fault_of (handle_line clk "DP1" booted_world) = Some OutOfBounds /\
  _servoPoss (final_world (handle_line clk "DP1" booted_world))
  = _servoPoss (final_world r) /\
  fault_of (handle_line clk "DP" booted_world) = Some NullDeref.
Proof. vm_compute. repeat split; reflexivity. Qed.

(** C10 (code evaluated): the pin list has 10 entries, the loop bound is
    [sizeof(pins) - 1 = 19]; the read at index 10 is out of bounds, and
    from every state the handler ends in a fault instead of returning. *)
Theorem C10_pin_list_read_past_end (clk : nat -> Z) (w : world) :
  length default_pins = 10%nat /\
  10 * sizeof_int - 1 = 19 /\
  local_read default_pins 10 w = Fault OutOfBounds w /\
  faulted (setDefaultPositions clk w) = true.
Proof.
  repeat split.
  unfold setDefaultPositions, for_lt.
  apply (for_range_faults _ 0 _ 10); [vm_compute; split; [discriminate|reflexivity]|].
  intros w0. reflexivity.
Qed.

(** * C4: tokens without a value field *)

Lemma char_in_In c set :
  char_in c set = true -> In c (list_ascii_of_string set).
Proof.
  induction set as [|d set IH]; cbn; [discriminate|].
  intros H. apply orb_true_iff in H as [H|H].
  - left. symmetry. apply Ascii.eqb_eq. exact H.
  - right. auto.
Qed.

Lemma strpbrk_none s accept :
  Forall (fun c => ~ In c (list_ascii_of_string accept)) (list_ascii_of_string s) ->
  strpbrk s accept = None.
Proof.
  induction s as [|c s IH]; cbn; intros H; [reflexivity|].
  apply Forall_cons in H as [Hc Hs].
  destruct (char_in c accept) eqn:E.
  - exfalso. apply Hc. apply char_in_In. exact E.
  - auto.
Qed.

(** C4 (code evaluated): for every token none of whose characters is a
    sign or a digit, [strpbrk] returns a null pointer and the loop body
    reads through it: the token stops the line with a null dereference,
    before any response is sent, and the tokens after it are not
    processed. *)
Theorem C4_digitless_token_null_deref (clk : nat -> Z) (command rest : string)
    (fuel : nat) (w : world) :
  Forall (fun c => ~ In c (list_ascii_of_string value_chars))
         (list_ascii_of_string command) ->
  process_command clk command w = Fault NullDeref w /\
  command_loop clk (S fuel) (Some (command, rest)) w = Fault NullDeref w.
Proof.
  intros H. apply strpbrk_none in H. unfold value_chars in H.
  assert (E : process_command clk command w = Fault NullDeref w).
  { unfold process_command. rewrite H. reflexivity. }
  split; [exact E|].
  cbn [command_loop]. unfold bind. rewrite E. reflexivity.
Qed.

Lemma C4_digitless_token_null_deref_witness :
  process_command tick_clock "HH" booted_world = Fault NullDeref booted_world /\
  command_loop tick_clock 5 (Some ("HH", "RB+10")%string) booted_world
  = Fault NullDeref booted_world.
Proof.
  apply (C4_digitless_token_null_deref tick_clock "HH" "RB+10" 4 booted_world).
  repeat constructor; cbn; intros H;
    repeat (destruct H as [H|H]; [discriminate H|]); exact H.
Defined.

(** * C5: unsupported channel codes *)

Lemma getControlPin_unknown servo :
  ~ In servo channel_codes -> getControlPin servo = -1.
Proof.
  intros H. unfold getControlPin.
  repeat match goal with
  | |- context [String.eqb servo ?c] =>
      destruct (String.eqb_spec servo c) as [->|?];
      [exfalso; apply H; cbn; tauto|]
  end.
  reflexivity.
Qed.


Lemma process_command_ack clk command value_str w :
  strpbrk command value_chars = Some value_str ->
  process_command clk command w
  = (if String.eqb (servo_of command) "DP" then setDefaultPositions clk
     else sendCommand clk (servo_of command) (to_int (atol value_str))
                      (starts_with_sign value_str))
      (set_tx (tx w ++ acknowledgement (servo_of command)
                         (starts_with_sign value_str) (atol value_str)) w).
Proof.
  unfold value_chars. intros H. unfold process_command. rewrite H.
  unfold deref, ret. unfold bind at 1. cbv beta zeta.
  assert (Hs : (match value_str with String c _ => c | EmptyString => NUL end =? "+")%char
               || (match value_str with String c _ => c | EmptyString => NUL end =? "-")%char
               = starts_with_sign value_str).
  { destruct value_str; reflexivity. }
  rewrite Hs. unfold acknowledgement.
  destruct (starts_with_sign value_str); cbn [when];
    unfold bind, Serial_print, Serial_println, Serial_print_dec, modify, ret;
    cbn [tx set_tx];
    repeat rewrite <- app_assoc; reflexivity.
Qed.






Example unsupported_then_supported :
  let w := final_world (handle_line tick_clock "ZZ7 HH90" booted_world) in
  tx w = tx booted_world
         ++ [Print "C:"; Println "ZZ7 HH90"]
         ++ acknowledgement "ZZ" false 7 ++ unsupported_response "ZZ"
         ++ acknowledgement "HH" false 90 /\
  pwm w = [SetPWM _pwm0 0 0 388].
Proof. vm_compute. split; reflexivity. Qed.

(** * C8: line accumulation *)

Lemma in_bounds_true {A} (a : list A) i :
  0 <= i < Z.of_nat (length a) -> in_bounds a i = true.
Proof.
  intros H. unfold in_bounds.
  apply andb_true_iff. split; [apply Z.leb_le|apply Z.ltb_lt]; lia.
Qed.

Lemma next_ndx i :
  0 <= i < numChars ->
  (if to_byte (i + 1) >=? numChars then to_byte (numChars - 1) else to_byte (i + 1))
  = Z.min (i + 1) 31.
Proof.
  unfold numChars, to_byte, wrap_unsigned. intros H.
  rewrite (Z.mod_small (i + 1)) by (simpl; lia).
  rewrite Z.geb_leb. destruct (Z.leb_spec 32 (i + 1));
    [change ((32 - 1) mod 2 ^ 8) with 31; lia|lia].
Qed.

Lemma recv_byte_char c w :
  buffer_ok w -> c <> endMarker ->
  recv_byte c w
  = Done tt (set_ndx (Z.min (ndx w + 1) 31)
               (set_commands (<[Z.to_nat (ndx w) := c]> (commands w)) w)).
Proof.
  intros [Hlen Hndx] Hc. unfold recv_byte, bind, get.
  apply Ascii.eqb_neq in Hc. unfold endMarker in Hc. rewrite Hc. cbn [negb].
  unfold array_write. rewrite in_bounds_true by (rewrite Hlen; unfold numChars in Hndx; lia).
  unfold modify. rewrite next_ndx by assumption. reflexivity.
Qed.

Lemma recv_byte_end w :
  buffer_ok w ->
  recv_byte endMarker w
  = Done tt (set_newData true (set_ndx 0
               (set_commands (<[Z.to_nat (ndx w) := NUL]> (commands w)) w))).
Proof.
  intros [Hlen Hndx]. unfold recv_byte, bind, get, endMarker.
  cbv zeta. rewrite Ascii.eqb_refl. cbn [negb].
  unfold array_write. rewrite in_bounds_true by (rewrite Hlen; unfold numChars in Hndx; lia).
  reflexivity.
Qed.

Lemma recv_loop_cons rc bytes w :
  recv_loop (rc :: bytes) w
  = if newData w then Done tt w
    else match recv_byte rc (set_rx bytes w) with
         | Done _ w' => recv_loop bytes w'
         | Fault f w' => Fault f w'
         end.
Proof.
  cbn [recv_loop]. unfold bind, get, modify.
  destruct (newData w); reflexivity.
Qed.


(** The bytes of a line, before its end marker: the index advances and
    stops at the last slot; the first 31 bytes are kept. *)
Lemma recv_loop_data (l : list ascii) : forall tail w,
  buffer_ok w -> newData w = false -> Forall (fun c => c <> endMarker) l ->
  exists w',
    recv_loop (l ++ tail) w = recv_loop tail w' /\
    buffer_ok w' /\ newData w' = false /\
    ndx w' = Z.min (ndx w + Z.of_nat (length l)) 31 /\
    take (Z.to_nat (ndx w')) (commands w')
    = take 31 (take (Z.to_nat (ndx w)) (commands w) ++ l).
Proof.
  induction l as [|c l IH]; intros tail w Hok Hnd Hl.
  - exists w. destruct Hok as [Hlen Hndx]. unfold numChars in Hndx.
    repeat split; auto; try (unfold numChars; lia).
    + cbn. lia.
    + rewrite app_nil_r, take_take. f_equal. lia.
  - apply Forall_cons in Hl as [Hc Hl].
    cbn [app]. rewrite recv_loop_cons, Hnd.
    assert (Hok' : buffer_ok (set_rx (l ++ tail) w)) by exact Hok.
    rewrite (recv_byte_char _ _ Hok' Hc).
    destruct Hok as [Hlen Hndx]. unfold numChars in Hndx.
    set (w1 := set_ndx _ _).
    assert (Hok1 : buffer_ok w1).
    { split; cbn; [rewrite length_insert; exact Hlen|unfold numChars; lia]. }
    destruct (IH tail w1 Hok1 Hnd Hl) as (w' & Heq & Hokw & Hndw & Hidx & Htake).
    exists w'. subst w1. cbn [ndx set_ndx commands set_commands set_rx] in Hidx, Htake.
    repeat split; try assumption; try apply Hokw.
    + rewrite Hidx. cbn [length]. lia.
    + rewrite Htake.
      destruct (Z.eq_dec (ndx w) 31) as [E|E].
      * rewrite E. change (Z.to_nat (Z.min (31 + 1) 31)) with 31%nat.
        change (Z.to_nat 31) with 31%nat.
        rewrite take_insert_ge by lia.
        rewrite !take_app_le by (rewrite length_take; lia).
        reflexivity.
      * replace (Z.to_nat (Z.min (ndx w + 1) 31)) with (S (Z.to_nat (ndx w))) by lia.
        rewrite (take_S_r (<[Z.to_nat (ndx w) := c]> (commands w)) (Z.to_nat (ndx w)) c)
          by (apply list_lookup_insert_eq; lia).
        rewrite take_insert_ge by lia.
        rewrite <- app_assoc. reflexivity.
Qed.



(** * The token loop never runs out of fuel *)

Lemma skip_delims_length delims s :
  (String.length (skip_delims delims s) <= String.length s)%nat.
Proof.
  induction s as [|c s IH]; cbn; [lia|].
  destruct (char_in c delims); cbn; lia.
Qed.

Lemma take_token_length delims s t r :
  s <> EmptyString -> take_token delims s = (t, r) ->
  (String.length r < String.length s)%nat.
Proof.
  revert t r. induction s as [|c s IH]; intros t r Hs H; [contradiction|].
  cbn in H. destruct (char_in c delims).
  - injection H as <- <-. cbn. lia.
  - destruct (take_token delims s) as [t' r'] eqn:E.
    injection H as <- <-. destruct s as [|c' s'].
    + cbn in E. injection E as <- <-. cbn. lia.
    + specialize (IH t' r' ltac:(discriminate) eq_refl). cbn in *. lia.
Qed.

Lemma strtok_shorter delims s t r :
  strtok delims s = Some (t, r) -> (String.length r < String.length s)%nat.
Proof.
  unfold strtok. pose proof (skip_delims_length delims s) as Hlen.
  destruct (skip_delims delims s) as [|c s'] eqn:E; [discriminate|].
  intros H.
  assert (H' : take_token delims (String c s') = (t, r))
    by (injection H as H; exact H).
  apply take_token_length in H'; [lia|discriminate].
Qed.

Lemma strtok_bound delims s :
  (tokens_bound (strtok delims s) <= String.length s)%nat.
Proof.
  destruct (strtok delims s) as [[t r]|] eqn:E; cbn; [|lia].
  apply strtok_shorter in E. lia.
Qed.

(** With the fuel [processCommands] gives it, the loop stops only when
    [strtok] returns null: more fuel changes nothing. *)
Lemma command_loop_fuel clk : forall n m command w,
  (tokens_bound command <= n)%nat -> (tokens_bound command <= m)%nat ->
  command_loop clk n command w = command_loop clk m command w.
Proof.
  induction n as [|n IH]; intros m [[tok rest]|] w Hn Hm; cbn in Hn, Hm;
    try lia; try (destruct m; reflexivity).
  destruct m as [|m]; [lia|]. cbn [command_loop]. unfold bind.
  destruct (process_command clk tok w) as [[] w'|f w']; [|reflexivity].
  pose proof (strtok_bound " " rest).
  apply IH; lia.
Qed.

Lemma processCommands_fuel clk line extra w :
  command_loop clk (String.length line) (strtok (String " " LF) line) w
  = command_loop clk (String.length line + extra) (strtok (String " " LF) line) w.
Proof.
  pose proof (strtok_bound (String " " LF) line).
  apply command_loop_fuel; lia.
Qed.

(** * C9: the registry invariant *)

Section HoareRules.

Context {I : world -> Prop}.

Lemma triple_bind {A B} (P : world -> Prop) (c : M A) (Q : A -> world -> Prop)
    (k : A -> M B) (R : B -> world -> Prop) :
  triple I P c Q -> (forall a, triple I (Q a) (k a) R) -> triple I P (bind c k) R.
Proof.
  intros Hc Hk w HP. unfold bind. specialize (Hc w HP).
  destruct (c w) as [a w'|f w']; [|exact Hc].
  apply (Hk a w' Hc).
Qed.

Lemma preserves_bind {A B} (c : M A) (k : A -> M B) :
  preserves I c -> (forall a, preserves I (k a)) -> preserves I (bind c k).
Proof. apply triple_bind. Qed.

Lemma preserves_ret {A} (a : A) : preserves I (ret a).
Proof. intros w H. exact H. Qed.

Lemma preserves_raise {A} f : preserves I (@raise A f).
Proof. intros w H. exact H. Qed.

Lemma preserves_get {A} (proj : world -> A) : preserves I (get proj).
Proof. intros w H. exact H. Qed.

Lemma preserves_modify (f : world -> world) :
  (forall w, I w -> I (f w)) -> preserves I (modify f).
Proof. intros Hf w H. apply Hf, H. Qed.

Lemma preserves_when b (c : M unit) : preserves I c -> preserves I (when b c).
Proof. destruct b; [auto|intros _; apply preserves_ret]. Qed.

Lemma preserves_deref {A} (p : option A) : preserves I (deref p).
Proof. destruct p; [apply preserves_ret|apply preserves_raise]. Qed.

Lemma preserves_deref_buffer buf : preserves I (deref_buffer buf).
Proof.
  unfold deref_buffer. destruct (of_buffer buf);
    [apply preserves_ret|apply preserves_raise].
Qed.

Lemma preserves_array_read {A} (proj : world -> list A) i :
  preserves I (array_read proj i).
Proof.
  intros w H. unfold array_read.
  destruct (if in_bounds (proj w) i then proj w !! Z.to_nat i else None); exact H.
Qed.

Lemma preserves_local_read a i : preserves I (local_read a i).
Proof.
  intros w H. unfold local_read.
  destruct (if in_bounds a i then a !! Z.to_nat i else None); exact H.
Qed.

Lemma preserves_for_range (body : Z -> M unit) :
  (forall i, preserves I (body i)) -> forall n i, preserves I (for_range n i body).
Proof.
  intros Hb. induction n as [|n IH]; intros i; cbn [for_range].
  - apply preserves_ret.
  - apply preserves_bind; [apply Hb|intros _; apply IH].
Qed.

End HoareRules.

Lemma preserves_for_range_bounded (I : world -> Prop) (body : Z -> M unit) :
  forall n lo,
    (forall i, lo <= i < lo + Z.of_nat n -> preserves I (body i)) ->
    preserves I (for_range n lo body).
Proof.
  induction n as [|n IH]; intros lo Hb; cbn [for_range].
  - apply preserves_ret.
  - apply preserves_bind; [apply Hb; lia|intros _].
    apply IH. intros i Hi. apply Hb. lia.
Qed.

Lemma in_bounds_lt {A} (a : list A) i :
  in_bounds a i = true -> (Z.to_nat i < length a)%nat.
Proof.
  unfold in_bounds. intros H. apply andb_true_iff in H as [H1 H2].
  apply Z.leb_le in H1. apply Z.ltb_lt in H2. lia.
Qed.

Lemma servo_range_degrees pin :
  int_range (getServoMin pin) /\ int_range (getServoMax pin) /\
  0 <= getServoMin pin /\ getServoMin pin <= getServoMax pin /\ getServoMax pin <= 180.
Proof.
  unfold getServoMin, getServoMax.
  repeat match goal with
  | |- context [pin =? ?c] => destruct (pin =? c); [vm_compute; intuition discriminate|]
  end.
  vm_compute; intuition discriminate.
Qed.

(** Every channel the table resolves has a non-degenerate degree range,
    so the inverse interpolation of [getCalculatedRelativeDegrees] never
    divides by zero. *)
Lemma resolved_pin_range servo :
  getControlPin servo > -1 ->
  getServoMin (getControlPin servo) < getServoMax (getControlPin servo).
Proof.
  unfold getControlPin.
  repeat match goal with
  | |- context [String.eqb servo ?c] =>
      destruct (String.eqb servo c); [intros _; reflexivity|]
  end.
  intros H. lia.
Qed.

Section Invariant.

Variable clk : nat -> Z.
Hypothesis clk_mono : clock_monotone clk.
Variable w0 : world.

Lemma millis_fresh :
  triple (registry_ok clk w0) (registry_ok clk w0) (millis clk) (fun now w => (registry_ok clk w0) w /\ fresh_stamp clk now w).
Proof.
  intros w (Hreg & Hpast & Hle). unfold millis.
  assert (Hpast' : stamps_past clk (set_millis_reads (S (millis_reads w)) w)).
  { unfold stamps_past in *. cbn.
    eapply Forall_impl; [exact Hpast|]. cbn. intros t Ht.
    pose proof (clk_mono (millis_reads w)). lia. }
  split; [split; [exact Hreg|split; [exact Hpast'|exact Hle]]|].
  split; [exact Hpast|]. cbn. apply clk_mono.
Qed.

Lemma write_stamp position now :
  triple (registry_ok clk w0) (fun w => (registry_ok clk w0) w /\ fresh_stamp clk now w)
    (array_write _lastUpdated set_lastUpdated position now) (fun _ => (registry_ok clk w0)).
Proof.
  intros w [(Hreg & Hpast & Hlen & Hle) [Hold Hnow]]. unfold array_write.
  destruct (in_bounds (_lastUpdated w) position) eqn:Hb;
    [|exact (conj Hreg (conj Hpast (conj Hlen Hle)))].
  apply in_bounds_lt in Hb.
  split; [exact Hreg|]. split; [|split].
  - unfold stamps_past. cbn. apply Forall_insert; assumption.
  - cbn. rewrite length_insert. exact Hlen.
  - cbn. intros i t t' Hi Hi'.
    destruct (Nat.eq_dec (Z.to_nat position) i) as [<-|Hne].
    + rewrite list_lookup_insert_eq in Hi' by exact Hb.
      injection Hi' as <-.
      destruct (lookup_lt_is_Some_2 _ _ Hb) as [t1 Ht1].
      specialize (Hle _ _ _ Hi Ht1).
      rewrite Forall_lookup in Hold. specialize (Hold _ _ Ht1). cbn in Hold. lia.
    + rewrite list_lookup_insert_ne in Hi' by exact Hne.
      apply (Hle _ _ _ Hi Hi').
Qed.

Lemma write_angle position degrees :
  angle_ok degrees ->
  preserves (registry_ok clk w0) (array_write _servoPoss set_servoPoss position degrees).
Proof.
  intros Hd w ([Hpulse Hangle] & Hpast & Hle). unfold array_write.
  destruct (in_bounds (_servoPoss w) position);
    [|exact (conj (conj Hpulse Hangle) (conj Hpast Hle))].
  split; [|split; assumption].
  split; [exact Hpulse|]. cbn. apply Forall_insert; assumption.
Qed.

Lemma setPWM_preserves b num on off : preserves (registry_ok clk w0) (setPWM b num on off).
Proof. apply preserves_modify. intros w H. exact H. Qed.

Lemma Serial_print_preserves s : preserves (registry_ok clk w0) (Serial_print s).
Proof. apply preserves_modify. intros w H. exact H. Qed.

Lemma Serial_println_preserves s : preserves (registry_ok clk w0) (Serial_println s).
Proof. apply preserves_modify. intros w H. exact H. Qed.

Lemma Serial_print_dec_preserves v : preserves (registry_ok clk w0) (Serial_print_dec v).
Proof. apply preserves_modify. intros w H. exact H. Qed.

Lemma setServoDegrees_preserves position degrees :
  0 <= degrees <= 180 -> preserves (registry_ok clk w0) (setServoDegrees clk position degrees).
Proof.
  intros Hd. unfold setServoDegrees.
  apply preserves_bind; [apply preserves_array_read|intros currentMin].
  apply preserves_bind; [apply preserves_array_read|intros currentMax].
  apply preserves_bind; [apply write_angle; right; exact Hd|intros _].
  eapply triple_bind; [apply millis_fresh|intros now].
  eapply triple_bind; [apply write_stamp|intros []; cbv beta].
  apply preserves_bind; [apply preserves_when, setPWM_preserves|intros _].
  apply preserves_when, setPWM_preserves.
Qed.

Lemma turnOffIdleServos_preserves : preserves (registry_ok clk w0) (turnOffIdleServos clk).
Proof.
  unfold turnOffIdleServos, for_lt. apply preserves_for_range. intros pin.
  eapply triple_bind; [apply millis_fresh|intros now].
  intros w [H _]. revert w H.
  apply preserves_bind; [apply preserves_array_read|intros last].
  apply preserves_when.
  apply preserves_bind; [apply preserves_when, setPWM_preserves|intros _].
  apply preserves_when, setPWM_preserves.
Qed.

Lemma setDefaultPositions_preserves : preserves (registry_ok clk w0) (setDefaultPositions clk).
Proof.
  unfold setDefaultPositions, for_lt. apply preserves_for_range. intros i.
  apply preserves_bind; [apply preserves_local_read|intros pin].
  apply setServoDegrees_preserves.
  pose proof (servo_range_degrees pin) as (Hmn & Hmx & H0 & Hle & H180).
  pose proof (getCalculatedDegreesFromPercentage_bounds 50 _ _ Hmn Hmx Hle). lia.
Qed.

Lemma sendCommand_preserves servo value relative :
  preserves (registry_ok clk w0) (sendCommand clk servo value relative).
Proof.
  unfold sendCommand.
  pose proof (servo_range_degrees (getControlPin servo)) as (Hmn & Hmx & H0 & Hle & H180).
  destruct (getControlPin servo >? -1).
  - set (v := if getControlPin servo =? PIN_INVERT then _ else _). clearbody v.
    cbv zeta. destruct relative; cbn [negb].
    + apply preserves_bind; [apply preserves_array_read|intros d].
      apply preserves_bind.
      { apply preserves_when, setServoDegrees_preserves.
        pose proof (getCalculatedDegreesFromPercentage_bounds 50 _ _ Hmn Hmx Hle). lia. }
      intros _.
      apply preserves_bind; [apply preserves_array_read|intros current].
      apply setServoDegrees_preserves.
      pose proof (getCalculatedRelativeDegrees_bounds v _ _ current Hmn Hmx Hle). lia.
    + apply setServoDegrees_preserves.
      pose proof (getCalculatedDegreesFromPercentage_bounds v _ _ Hmn Hmx Hle). lia.
  - apply preserves_bind; [apply Serial_print_preserves|intros _].
    apply Serial_println_preserves.
Qed.

Lemma process_command_preserves command :
  preserves (registry_ok clk w0) (process_command clk command).
Proof.
  unfold process_command.
  apply preserves_bind; [apply preserves_deref|intros value_str]. cbv zeta.
  apply preserves_bind; [apply Serial_print_preserves|intros _].
  apply preserves_bind; [apply Serial_print_preserves|intros _].
  apply preserves_bind; [apply preserves_when, Serial_print_preserves|intros _].
  apply preserves_bind; [apply Serial_print_preserves|intros _].
  apply preserves_bind; [apply Serial_print_dec_preserves|intros _].
  apply preserves_bind; [apply Serial_println_preserves|intros _].
  destruct (String.eqb (servo_of command) "DP").
  - apply setDefaultPositions_preserves.
  - apply sendCommand_preserves.
Qed.

Lemma command_loop_preserves fuel : forall command,
  preserves (registry_ok clk w0) (command_loop clk fuel command).
Proof.
  induction fuel as [|fuel IH]; intros [[tok rest]|]; cbn [command_loop];
    try apply preserves_ret.
  apply preserves_bind; [apply process_command_preserves|intros _]. apply IH.
Qed.

Lemma processCommands_preserves : preserves (registry_ok clk w0) (processCommands clk).
Proof.
  unfold processCommands.
  apply preserves_bind; [apply preserves_get|intros nd].
  destruct nd; [|apply preserves_ret].
  apply preserves_bind; [apply Serial_print_preserves|intros _].
  apply preserves_bind; [apply preserves_get|intros buf].
  apply preserves_bind; [apply preserves_deref_buffer|intros line].
  apply preserves_bind; [apply Serial_println_preserves|intros _].
  apply preserves_bind; [apply command_loop_preserves|intros _].
  apply preserves_modify. intros w H. exact H.
Qed.

Lemma recv_byte_preserves rc : preserves (registry_ok clk w0) (recv_byte rc).
Proof.
  unfold recv_byte. cbv zeta.
  apply preserves_bind; [apply preserves_get|intros i].
  assert (Hw : forall c, preserves (registry_ok clk w0) (array_write commands set_commands i c)).
  { intros c w H. unfold array_write. destruct (in_bounds (commands w) i); exact H. }
  destruct (negb (Ascii.eqb rc "010")).
  - apply preserves_bind; [apply Hw|intros _].
    apply preserves_modify. intros w H. exact H.
  - apply preserves_bind; [apply Hw|intros _].
    apply preserves_bind; [|intros _]; apply preserves_modify; intros w H; exact H.
Qed.

Lemma recv_loop_preserves avail : preserves (registry_ok clk w0) (recv_loop avail).
Proof.
  induction avail as [|rc avail IH]; cbn [recv_loop]; [apply preserves_ret|].
  apply preserves_bind; [apply preserves_get|intros nd].
  destruct nd; [apply preserves_ret|].
  apply preserves_bind; [apply preserves_modify; intros w H; exact H|intros _].
  apply preserves_bind; [apply recv_byte_preserves|intros _]. exact IH.
Qed.

Lemma loop_preserves : preserves (registry_ok clk w0) (loop clk).
Proof.
  unfold loop, recvWithEndMarker.
  apply preserves_bind.
  { apply preserves_bind; [apply preserves_get|intros avail].
    apply recv_loop_preserves. }
  intros _. apply preserves_bind; [apply processCommands_preserves|intros _].
  apply turnOffIdleServos_preserves.
Qed.

Lemma run_preserves chunks : preserves (registry_ok clk w0) (run clk chunks).
Proof.
  induction chunks as [|bytes chunks IH]; cbn [run]; [apply preserves_ret|].
  apply preserves_bind; [apply preserves_modify; intros w H; exact H|intros _].
  apply preserves_bind; [apply loop_preserves|intros _]. exact IH.
Qed.

End Invariant.

Lemma preserves_final {A} (I : world -> Prop) (c : M A) w :
  preserves I c -> I w -> I (final_world (c w)).
Proof.
  intros Hc Hw. specialize (Hc w Hw). destruct (c w); exact Hc.
Qed.

Lemma stamps_le_refl w : stamps_le w w.
Proof.
  split; [reflexivity|]. intros i t t' H H'. rewrite H in H'.
  injection H' as <-. lia.
Qed.

(** C9 (code evaluated at the failing input): the line [DP1] after
    [setup].  The handler stores the ten listed channels (ten PWM calls),
    the registry being well-formed up to there, and then reads index 10
    of the ten-element pin list.  Whatever that read yields is passed on
    to [setServoDegrees], which stores the angle and the timestamp
    through the position unchecked: for every position outside [0,31]
    these accesses are outside the registry arrays. *)
Theorem C9_registry_left_at_default_positions (clk : nat -> Z) :
  let r := run clk ["DP1" ++ LF]%string booted_world in
  fault_of r = Some OutOfBounds /\
  length (pwm (final_world r)) = 10%nat /\
  take 10 (_servoPoss (final_world r)) = [70; 67; 82; 55; 40; 90; 92; 105; 55; 80] /\
  10 * sizeof_int - 1 = 19 /\
  (forall w, local_read default_pins 10 w = Fault OutOfBounds w) /\
  (forall position w,
     arrays_ok w -> position < 0 \/ 32 <= position ->
     setServoDegrees clk position
       (getCalculatedDegreesFromPercentage 50 (getServoMin position) (getServoMax position))
       w
     = Fault OutOfBounds w).
Proof.
  split; [vm_compute; reflexivity|].
  split; [vm_compute; reflexivity|].
  split; [vm_compute; reflexivity|].
  split; [reflexivity|].
  split; [intros w; reflexivity|].
  intros position w (Hlen & _) Hp. unfold setServoDegrees, bind, array_read.
  assert (Hb : in_bounds (_servoMins w) position = false).
  { unfold in_bounds. apply andb_false_iff.
    destruct Hp; [left; apply Z.leb_gt|right; apply Z.ltb_ge; rewrite Hlen]; lia. }
  rewrite Hb. reflexivity.
Qed.

(** X21: the registry invariant on the inputs that run without fault.
    Under a clock that never runs backwards, from any state in which
    every channel has [minPulse <= maxPulse], a [lastAngle] that is -1 or
    within [0,180], and no timestamp ahead of the clock: for every input
    that the program processes without running into undefined behaviour
    (no DP command, no token without a value field), the state reached
    still has [minPulse <= maxPulse] and [lastAngle] equal to -1 or
    within [0,180] for every channel, and no channel's [lastUpdateTime]
    is smaller than it was. *)
Theorem registry_invariant_without_fault (clk : nat -> Z) (chunks : list string)
    (w : world) :
  clock_monotone clk -> registry_inv w -> stamps_past clk w ->
  fault_of (run clk chunks w) = None ->
  let w' := final_world (run clk chunks w) in
  Forall2 Z.le (_servoMins w') (_servoMaxs w') /\
  Forall (fun a => a = -1 \/ 0 <= a <= 180) (_servoPoss w') /\
  length (_lastUpdated w') = length (_lastUpdated w) /\
  (forall i t t',
     _lastUpdated w !! i = Some t -> _lastUpdated w' !! i = Some t' -> t <= t').
Proof.
  intros Hmono Hreg Hpast _ w'.
  assert (H : registry_ok clk w w').
  { apply preserves_final; [apply run_preserves, Hmono|].
    split; [exact Hreg|]. split; [exact Hpast|apply stamps_le_refl]. }
  destruct H as ([Hpulse Hangle] & _ & Hlen & Hle).
  split; [exact Hpulse|]. split; [exact Hangle|]. split; [exact Hlen|exact Hle].
Qed.

Lemma registry_invariant_without_fault_witness :
  let chunks := ["HH90" ++ LF; ""; "RB+10 RM-5 ZZ1" ++ LF; "LI" ++ "30" ++ LF]%string in
  let w' := final_world (run tick_clock chunks booted_world) in
  Forall2 Z.le (_servoMins w') (_servoMaxs w') /\
  Forall (fun a => a = -1 \/ 0 <= a <= 180) (_servoPoss w') /\
  length (_lastUpdated w') = length (_lastUpdated booted_world) /\
  (forall i t t',
     _lastUpdated booted_world !! i = Some t -> _lastUpdated w' !! i = Some t' -> t <= t').
Proof.
  apply (registry_invariant_without_fault tick_clock).
  - intros n. unfold tick_clock. lia.
  - split; vm_compute; repeat constructor; try discriminate.
  - unfold stamps_past. vm_compute. repeat constructor; discriminate.
  - vm_compute. reflexivity.
Defined.

Example run_reaches_the_last_line :
  let chunks := ["HH90" ++ LF; ""; "RB+10 RM-5 ZZ1" ++ LF; "LI" ++ "30" ++ LF]%string in
  let r := run tick_clock chunks booted_world in
  fault_of r = None /\
  take 6 (_servoPoss (final_world r)) = [94; -1; 89; -1; -1; 140] /\
  _servoPoss (final_world r) !! 16%nat = Some 24.
Proof. vm_compute. repeat split; reflexivity. Qed.

(** * The watchdog sweep in general *)

(** From every state and under every clock, a sweep leaves the timestamps
    and angles alone and only ever switches off outputs 0..15 of the
    first board: no channel with id 16 or more is reached. *)
Lemma turnOffIdleServos_first_board_only clk w :
  swept w (final_world (turnOffIdleServos clk w)).
Proof.
  apply preserves_final.
  - unfold turnOffIdleServos, for_lt. apply preserves_for_range_bounded.
    intros pin Hpin.
    apply preserves_bind; [intros w1 H; exact H|intros now].
    apply preserves_bind; [apply preserves_array_read|intros last].
    apply preserves_when.
    replace (pin <? 16) with true by (symmetry; apply Z.ltb_lt; lia).
    replace (pin >=? 16) with false
      by (symmetry; rewrite Z.geb_leb; apply Z.leb_gt; lia).
    apply preserves_bind; [|intros _; apply preserves_ret].
    apply preserves_modify.
    intros w1 (Hstamp & Hangle & calls & Hcalls & Hall).
    split; [exact Hstamp|]. split; [exact Hangle|].
    exists (calls ++ [SetPWM _pwm0 (to_byte pin) (to_uint16 0) (to_uint16 4096)]).
    split; [cbn; rewrite Hcalls, <- app_assoc; reflexivity|].
    apply Forall_app. split; [exact Hall|].
    constructor; [|constructor]. cbn.
    unfold to_byte, wrap_unsigned. rewrite Z.mod_small by (cbn in Hpin; lia).
    cbn in Hpin. repeat split; lia.
  - split; [reflexivity|]. split; [reflexivity|].
    exists []. split; [symmetry; apply app_nil_r|constructor].
Qed.

(** * Dispatch returns normally *)

Lemma returns_bind {A B} (P : world -> Prop) (c : M A) (k : A -> M B) :
  returns P c -> (forall a, returns P (k a)) -> returns P (bind c k).
Proof.
  intros Hc Hk w HP. destruct (Hc w HP) as (a & w' & E & HP').
  unfold bind. rewrite E. apply Hk, HP'.
Qed.

Lemma returns_ret {A} (P : world -> Prop) (a : A) : returns P (ret a).
Proof. intros w H. exists a, w. split; [reflexivity|exact H]. Qed.

Lemma returns_when (P : world -> Prop) b (c : M unit) :
  returns P c -> returns P (when b c).
Proof. destruct b; [auto|intros _; apply returns_ret]. Qed.

Lemma returns_modify (P : world -> Prop) (f : world -> world) :
  (forall w, P w -> P (f w)) -> returns P (modify f).
Proof. intros Hf w H. exists tt, (f w). split; [reflexivity|apply Hf, H]. Qed.

Lemma returns_array_read (proj : world -> list Z) i :
  (forall w, arrays_ok w -> length (proj w) = 32%nat) -> 0 <= i < 32 ->
  returns arrays_ok (array_read proj i).
Proof.
  intros Hlen Hi w H. unfold array_read.
  rewrite in_bounds_true by (rewrite (Hlen w H); lia).
  destruct (lookup_lt_is_Some_2 (proj w) (Z.to_nat i)) as [x Hx];
    [rewrite (Hlen w H); lia|].
  rewrite Hx. exists x, w. split; [reflexivity|exact H].
Qed.

Lemma returns_array_write (proj : world -> list Z) upd i x :
  (forall w, arrays_ok w -> length (proj w) = 32%nat) ->
  (forall w v, arrays_ok w -> length v = 32%nat -> arrays_ok (upd v w)) ->
  0 <= i < 32 ->
  returns arrays_ok (array_write proj upd i x).
Proof.
  intros Hlen Hupd Hi w H. unfold array_write.
  rewrite in_bounds_true by (rewrite (Hlen w H); lia).
  eexists tt, _. split; [reflexivity|].
  apply Hupd; [exact H|]. rewrite length_insert. apply Hlen, H.
Qed.

Lemma setServoDegrees_returns clk position degrees :
  0 <= position < 32 -> returns arrays_ok (setServoDegrees clk position degrees).
Proof.
  intros Hp. unfold setServoDegrees.
  apply returns_bind;
    [apply returns_array_read; [intros w H; apply H|exact Hp]|intros currentMin].
  apply returns_bind;
    [apply returns_array_read; [intros w H; apply H|exact Hp]|intros currentMax].
  apply returns_bind.
  { apply returns_array_write; [intros w H; apply H| |exact Hp].
    intros w v (H1 & H2 & H3 & H4) Hv. repeat split; assumption. }
  intros _. apply returns_bind.
  { intros w H. eexists _, _. split; [reflexivity|exact H]. }
  intros now. apply returns_bind.
  { apply returns_array_write; [intros w H; apply H| |exact Hp].
    intros w v (H1 & H2 & H3 & H4) Hv. repeat split; assumption. }
  intros _.
  apply returns_bind; [|intros _]; apply returns_when, returns_modify;
    intros w H; exact H.
Qed.

Lemma getControlPin_bounds servo :
  getControlPin servo = -1 \/ 0 <= getControlPin servo < 32.
Proof.
  unfold getControlPin.
  repeat match goal with
  | |- context [String.eqb servo ?c] =>
      destruct (String.eqb servo c); [right; vm_compute; intuition discriminate|]
  end.
  left. reflexivity.
Qed.

(** Whatever the code, the value and the mode, [sendCommand] returns; so
    does the loop body for every token that has a value field and is not
    the DP command. *)
Lemma sendCommand_returns clk servo value relative :
  returns arrays_ok (sendCommand clk servo value relative).
Proof.
  unfold sendCommand.
  destruct (getControlPin_bounds servo) as [E|Hp].
  - rewrite E. cbn.
    apply returns_bind; [|intros _]; apply returns_modify; intros w H; exact H.
  - replace (getControlPin servo >? -1) with true
      by (symmetry; apply Z.gtb_lt; lia).
    cbv zeta. destruct relative; cbn [negb].
    + apply returns_bind;
        [apply returns_array_read; [intros w H; apply H|exact Hp]|intros d].
      apply returns_bind; [apply returns_when, setServoDegrees_returns, Hp|intros _].
      apply returns_bind;
        [apply returns_array_read; [intros w H; apply H|exact Hp]|intros current].
      apply setServoDegrees_returns, Hp.
    + apply setServoDegrees_returns, Hp.
Qed.

Lemma process_command_returns clk command value_str :
  strpbrk command value_chars = Some value_str ->
  servo_of command <> "DP"%string ->
  returns arrays_ok (process_command clk command).
Proof.
  intros Hv Hdp w H. rewrite (process_command_ack clk command value_str w Hv).
  destruct (String.eqb_spec (servo_of command) "DP") as [E|_]; [contradiction|].
  apply sendCommand_returns. exact H.
Qed.

(** * Further properties of the angle arithmetic *)

Lemma fromPercentage_formula p mn mx :
  int_range mn -> int_range mx -> mn <= mx ->
  getCalculatedDegreesFromPercentage p mn mx
  = mn + (mx - mn) * clamp_percent p / 100.
Proof.
  intros Hmn Hmx Hle. unfold getCalculatedDegreesFromPercentage.
  rewrite clamp_percent_spec.
  pose proof (map_percent_bounds (clamp_percent p) mn mx
                (clamp_percent_range p) Hmn Hmx Hle) as Hb.
  rewrite to_int_small by (unfold int_range in *; lia).
  apply map_percent; auto using clamp_percent_range.
Qed.

(** X1: [getCalculatedDegreesFromPercentage] is monotone in the
    percentage, stays within the bounds, and saturates: every percentage
    at or below 0 gives the minimum, every percentage at or above 100
    the maximum. *)
Theorem fromPercentage_monotone_saturating (p q mn mx : Z) :
  int_range mn -> int_range mx -> mn <= mx ->
  (p <= q ->
   getCalculatedDegreesFromPercentage p mn mx
   <= getCalculatedDegreesFromPercentage q mn mx) /\
  (p <= 0 -> getCalculatedDegreesFromPercentage p mn mx = mn) /\
  (100 <= p -> getCalculatedDegreesFromPercentage p mn mx = mx) /\
  mn <= getCalculatedDegreesFromPercentage p mn mx <= mx.
Proof.
  intros Hmn Hmx Hle.
  rewrite !fromPercentage_formula by assumption.
  pose proof (clamp_percent_range p) as Hp.
  pose proof (clamp_percent_range q) as Hq.
  repeat split.
  - intros Hpq. apply Z.add_le_mono_l, Z.div_le_mono; [lia|].
    apply Z.mul_le_mono_nonneg_l; [lia|]. unfold clamp_percent. lia.
  - intros H0. replace (clamp_percent p) with 0 by (unfold clamp_percent; lia).
    rewrite Z.mul_0_r, Z.div_0_l by lia. lia.
  - intros H100. replace (clamp_percent p) with 100 by (unfold clamp_percent; lia).
    rewrite Z.div_mul by lia. lia.
  - assert (0 <= (mx - mn) * clamp_percent p / 100) by (apply Z.div_pos; nia). lia.
  - assert ((mx - mn) * clamp_percent p / 100 <= mx - mn)
      by (apply Z.div_le_upper_bound; nia). lia.
Qed.

Lemma fromPercentage_monotone_saturating_witness :
  (33 <= 90 ->
   getCalculatedDegreesFromPercentage 33 40 100
   <= getCalculatedDegreesFromPercentage 90 40 100) /\
  (33 <= 0 -> getCalculatedDegreesFromPercentage 33 40 100 = 40) /\
  (100 <= 33 -> getCalculatedDegreesFromPercentage 33 40 100 = 100) /\
  40 <= getCalculatedDegreesFromPercentage 33 40 100 <= 100.
Proof.
  apply (fromPercentage_monotone_saturating 33 90 40 100); unfold int_range; lia.
Defined.

(** The inverse interpolation of [getCalculatedRelativeDegrees]: the
    percentage of an angle within a non-degenerate range. *)
Lemma map_to_percent cur mn mx :
  int_range mn -> int_range mx -> mn < mx -> mn <= cur <= mx ->
  map cur mn mx 0 100 = (cur - mn) * 100 / (mx - mn) /\
  0 <= (cur - mn) * 100 / (mx - mn) <= 100.
Proof.
  unfold int_range, map. intros Hmn Hmx Hlt Hcur.
  rewrite (to_long_small (cur - mn)) by lia.
  rewrite (to_long_small (100 - 0)) by lia.
  rewrite (to_long_small (mx - mn)) by lia.
  replace (100 - 0) with 100 by lia.
  rewrite (to_long_small ((cur - mn) * 100)) by lia.
  rewrite Z.quot_div_nonneg by lia.
  assert (Hq : 0 <= (cur - mn) * 100 / (mx - mn) <= 100).
  { split; [apply Z.div_pos; lia|].
    apply Z.div_le_upper_bound; nia. }
  rewrite Z.add_0_r. rewrite to_long_small by lia. split; [reflexivity|exact Hq].
Qed.

(** X2: for [int] arguments and a non-degenerate range
    ([minimum < maximum], so that the inverse interpolation does not
    divide by zero), whatever the delta and whatever the current angle,
    [getCalculatedRelativeDegrees] returns an angle within the bounds. *)
Theorem relativeDegrees_within_bounds (v mn mx cur : Z) :
  int_range v -> int_range cur ->
  int_range mn -> int_range mx -> mn < mx ->
  mn <= getCalculatedRelativeDegrees v mn mx cur <= mx.
Proof.
  intros _ _ Hmn Hmx Hlt. unfold getCalculatedRelativeDegrees.
  set (np := to_int (to_int (map cur mn mx 0 100) + v)).
  rewrite clamp_percent_spec.
  pose proof (map_percent_bounds (clamp_percent np) mn mx
                (clamp_percent_range np) Hmn Hmx ltac:(lia)) as Hb.
  rewrite to_int_small; [exact Hb|]. unfold int_range in *. lia.
Qed.

Lemma relativeDegrees_within_bounds_witness :
  45 <= getCalculatedRelativeDegrees 30000 45 120 (-1) <= 120.
Proof.
  apply (relativeDegrees_within_bounds 30000 45 120 (-1)); unfold int_range; lia.
Defined.

(** X3: for an angle within a non-degenerate range, a relative command
    of delta 0 never raises the angle (the two truncating divisions can
    only lose), a delta of 100 or more (up to the [int] headroom) goes to
    the maximum and a delta of -100 or less to the minimum. *)
Theorem relativeDegrees_zero_and_saturation (v mn mx cur : Z) :
  int_range mn -> int_range mx -> mn < mx -> mn <= cur <= mx ->
  getCalculatedRelativeDegrees 0 mn mx cur <= cur /\
  (100 <= v <= 32667 -> getCalculatedRelativeDegrees v mn mx cur = mx) /\
  (-32768 <= v <= -100 -> getCalculatedRelativeDegrees v mn mx cur = mn).
Proof.
  intros Hmn Hmx Hlt Hcur.
  destruct (map_to_percent cur mn mx Hmn Hmx Hlt Hcur) as [Emap Hpct].
  assert (Hfin : forall np, 0 <= np <= 100 ->
            to_int (map np 0 100 mn mx) = mn + (mx - mn) * np / 100).
  { intros np Hnp.
    pose proof (map_percent_bounds np mn mx Hnp Hmn Hmx ltac:(lia)) as Hb.
    rewrite to_int_small by (unfold int_range in *; lia).
    apply map_percent; auto; lia. }
  unfold getCalculatedRelativeDegrees. rewrite Emap.
  set (pct := (cur - mn) * 100 / (mx - mn)) in *.
  rewrite (to_int_small pct) by (unfold int_range; lia).
  repeat split.
  - rewrite Z.add_0_r, (to_int_small pct) by (unfold int_range; lia).
    rewrite clamp_percent_spec.
    replace (clamp_percent pct) with pct by (unfold clamp_percent; lia).
    rewrite Hfin by lia.
    assert ((mx - mn) * pct <= (cur - mn) * 100).
    { subst pct. apply Z.mul_div_le. lia. }
    assert ((mx - mn) * pct / 100 <= cur - mn)
      by (apply Z.div_le_upper_bound; lia).
    lia.
  - intros Hv. rewrite (to_int_small (pct + v)) by (unfold int_range; lia).
    rewrite clamp_percent_spec.
    replace (clamp_percent (pct + v)) with 100 by (unfold clamp_percent; lia).
    rewrite Hfin by lia. rewrite Z.div_mul by lia. lia.
  - intros Hv. rewrite (to_int_small (pct + v)) by (unfold int_range; lia).
    rewrite clamp_percent_spec.
    replace (clamp_percent (pct + v)) with 0 by (unfold clamp_percent; lia).
    rewrite Hfin by lia. rewrite Z.mul_0_r, Z.div_0_l by lia. lia.
Qed.

Lemma relativeDegrees_zero_and_saturation_witness :
  getCalculatedRelativeDegrees 0 45 120 82 <= 82 /\
  (100 <= 250 <= 32667 -> getCalculatedRelativeDegrees 250 45 120 82 = 120) /\
  (-32768 <= 250 <= -100 -> getCalculatedRelativeDegrees 250 45 120 82 = 45).
Proof.
  apply (relativeDegrees_zero_and_saturation 250 45 120 82); unfold int_range; lia.
Defined.

Example relative_zero_loses_a_degree :
  getCalculatedRelativeDegrees 0 45 120 82 = 81.
Proof. reflexivity. Qed.

(** * The lookup tables *)

(** X4: [getControlPin] returns -1 exactly for the codes outside the
    table; a code of the table resolves to a pin in [0,20] whose degree
    range is non-degenerate, and no other string resolves to that pin. *)
Theorem getControlPin_table (servo other : string) :
  (getControlPin servo = -1 <-> ~ In servo channel_codes) /\
  (In servo channel_codes ->
   0 <= getControlPin servo <= 20 /\
   getServoMin (getControlPin servo) < getServoMax (getControlPin servo) /\
   (getControlPin other = getControlPin servo -> other = servo)).
Proof.
  split; [split|].
  - intros E Hin. cbn in Hin.
    repeat (destruct Hin as [<-|Hin]; [discriminate E|]). exact Hin.
  - apply getControlPin_unknown.
  - intros Hin. cbn in Hin.
    repeat (destruct Hin as [<-|Hin];
      [split; [vm_compute; intuition discriminate|];
       split; [reflexivity|];
       unfold getControlPin at 1;
       repeat match goal with
       | |- context [String.eqb other ?c] =>
           destruct (String.eqb_spec other c) as [->|?];
           [first [intros _; reflexivity|intros E; discriminate E]|]
       end;
       intros E; discriminate E|]).
    contradiction.
Qed.

(** X5: for every pin, known or not, the degree range returned by
    [getServoMin] and [getServoMax] is ordered and lies within [0,180]. *)
Theorem servo_degree_range_valid (servoPin : Z) :
  0 <= getServoMin servoPin /\
  getServoMin servoPin <= getServoMax servoPin /\
  getServoMax servoPin <= 180.
Proof.
  pose proof (servo_range_degrees servoPin) as (_ & _ & H0 & Hle & H180).
  split; [exact H0|]. split; [exact Hle|exact H180].
Qed.

(** * AdaHat: the effect of the registry operations *)

Lemma array_read_in (proj : world -> list Z) i w :
  (Z.to_nat i < length (proj w))%nat -> 0 <= i ->
  exists x, proj w !! Z.to_nat i = Some x /\ array_read proj i w = Done x w.
Proof.
  intros Hlt H0. destruct (lookup_lt_is_Some_2 _ _ Hlt) as [x Hx].
  exists x. split; [exact Hx|]. unfold array_read.
  rewrite in_bounds_true by lia. rewrite Hx. reflexivity.
Qed.

Lemma in_bounds_false {A} (a : list A) i :
  i < 0 \/ Z.of_nat (length a) <= i -> in_bounds a i = false.
Proof.
  intros H. unfold in_bounds. apply andb_false_iff.
  destruct H; [left; apply Z.leb_gt|right; apply Z.ltb_ge]; lia.
Qed.

Lemma setServoDegrees_spec clk position degrees w :
  arrays_ok w -> 0 <= position < 32 ->
  exists mn mx,
    _servoMins w !! Z.to_nat position = Some mn /\
    _servoMaxs w !! Z.to_nat position = Some mx /\
    setServoDegrees clk position degrees w
    = Done tt (after_setServoDegrees clk position degrees mn mx w).
Proof.
  intros (H1 & H2 & H3 & H4) Hp.
  destruct (array_read_in _servoMins position w) as (mn & Hmn & Emn); [lia|lia|].
  destruct (array_read_in _servoMaxs position w) as (mx & Hmx & Emx); [lia|lia|].
  exists mn, mx. split; [exact Hmn|]. split; [exact Hmx|].
  unfold setServoDegrees. unfold bind at 1. rewrite Emn.
  unfold bind at 1. rewrite Emx.
  unfold bind at 1. unfold array_write at 1.
  rewrite in_bounds_true by lia.
  unfold bind at 1, millis. unfold bind at 1. unfold array_write at 1.
  cbn [_lastUpdated set_servoPoss set_millis_reads].
  rewrite in_bounds_true by lia.
  unfold after_setServoDegrees, servo_call, bind, when, setPWM, modify, ret.
  rewrite Z.geb_leb.
  destruct (Z.ltb_spec position 16); destruct (Z.leb_spec 16 position);
    try lia; reflexivity.
Qed.

(** X6: for an in-range position, [setServoDegrees] returns normally; it
    stores the angle and the clock reading at that position only, leaves
    the calibration and the serial output alone, and makes exactly one
    PWM call, on output [position] of the first board when
    [position < 16] and on output [position - 16] of the second board
    otherwise, carrying [map(degrees, 0, 180, min, max)]. *)
Theorem setServoDegrees_effect (clk : nat -> Z) (position degrees : Z) (w : world) :
  arrays_ok w -> 0 <= position < 32 ->
  let r := setServoDegrees clk position degrees w in
  exists mn mx,
    _servoMins w !! Z.to_nat position = Some mn /\
    _servoMaxs w !! Z.to_nat position = Some mx /\
    fault_of r = None /\
    _servoMins (final_world r) = _servoMins w /\
    _servoMaxs (final_world r) = _servoMaxs w /\
    _servoPoss (final_world r) = <[Z.to_nat position := degrees]> (_servoPoss w) /\
    _lastUpdated (final_world r)
    = <[Z.to_nat position := clk (millis_reads w)]> (_lastUpdated w) /\
    tx (final_world r) = tx w /\
    pwm (final_world r)
    = pwm w ++ [SetPWM (if position <? 16 then _pwm0 else _pwm1)
                       (if position <? 16 then position else position - 16)
                       0 (to_uint16 (to_int (map degrees 0 180 mn mx)))].
Proof.
  intros Hok Hp r.
  destruct (setServoDegrees_spec clk position degrees w Hok Hp)
    as (mn & mx & Hmn & Hmx & E).
  exists mn, mx. subst r. rewrite E. cbn.
  repeat (split; [first [assumption|reflexivity]|]).
  f_equal. unfold servo_call, to_byte, wrap_unsigned.
  destruct (Z.ltb_spec position 16).
  - rewrite Z.mod_small by (cbn; lia). reflexivity.
  - rewrite Z.mod_small by (cbn; lia). reflexivity.
Qed.

Lemma setServoDegrees_effect_witness :
  let r := setServoDegrees tick_clock 17 90 booted_world in
  exists mn mx,
    _servoMins booted_world !! Z.to_nat 17 = Some mn /\
    _servoMaxs booted_world !! Z.to_nat 17 = Some mx /\
    fault_of r = None /\
    _servoMins (final_world r) = _servoMins booted_world /\
    _servoMaxs (final_world r) = _servoMaxs booted_world /\
    _servoPoss (final_world r) = <[Z.to_nat 17 := 90]> (_servoPoss booted_world) /\
    _lastUpdated (final_world r)
    = <[Z.to_nat 17 := tick_clock (millis_reads booted_world)]>
        (_lastUpdated booted_world) /\
    tx (final_world r) = tx booted_world /\
    pwm (final_world r)
    = pwm booted_world
      ++ [SetPWM (if 17 <? 16 then _pwm0 else _pwm1)
                 (if 17 <? 16 then 17 else 17 - 16)
                 0 (to_uint16 (to_int (map 90 0 180 mn mx)))].
Proof.
  apply (setServoDegrees_effect tick_clock 17 90 booted_world).
  - repeat split; reflexivity.
  - lia.
Defined.

Lemma setServoDegrees_oob clk position degrees w :
  arrays_ok w -> position < 0 \/ 32 <= position ->
  setServoDegrees clk position degrees w = Fault OutOfBounds w.
Proof.
  intros (H1 & _) Hp. unfold setServoDegrees, bind, array_read.
  rewrite in_bounds_false by (rewrite H1; lia). reflexivity.
Qed.

(** X7: [setServoDegrees] does not check its position: for a position
    outside [0,31] the very first array access is out of bounds, and
    nothing has been changed or sent before it. *)
Theorem setServoDegrees_out_of_range (clk : nat -> Z) (position degrees : Z) (w : world) :
  arrays_ok w -> position < 0 \/ 32 <= position ->
  setServoDegrees clk position degrees w = Fault OutOfBounds w.
Proof.
  intros (Hlen & _) Hp. unfold setServoDegrees, bind, array_read.
  assert (Hb : in_bounds (_servoMins w) position = false).
  { apply in_bounds_false. rewrite Hlen. lia. }
  rewrite Hb. reflexivity.
Qed.

Lemma setServoDegrees_out_of_range_witness :
  setServoDegrees tick_clock (-1) 90 booted_world = Fault OutOfBounds booted_world.
Proof.
  apply (setServoDegrees_out_of_range tick_clock (-1) 90 booted_world).
  - repeat split; reflexivity.
  - lia.
Defined.

(** X8: [getServoDegrees] reads back what [setServoDegrees] stored: at
    the position just set it returns the new angle, at any other
    in-range position what it returned before. *)
Theorem getServoDegrees_after_set (clk : nat -> Z) (position degrees q : Z) (w : world) :
  arrays_ok w -> 0 <= position < 32 -> 0 <= q < 32 ->
  exists w' old,
    setServoDegrees clk position degrees w = Done tt w' /\
    getServoDegrees q w = Done old w /\
    getServoDegrees q w' = Done (if q =? position then degrees else old) w'.
Proof.
  intros Hok Hp Hq.
  destruct (setServoDegrees_spec clk position degrees w Hok Hp)
    as (mn & mx & _ & _ & E).
  destruct Hok as (H1 & H2 & H3 & H4).
  destruct (array_read_in _servoPoss q w) as (old & Hold & Eold); [lia|lia|].
  exists (after_setServoDegrees clk position degrees mn mx w), old.
  split; [exact E|]. split; [exact Eold|].
  unfold getServoDegrees, array_read. cbn [_servoPoss after_setServoDegrees].
  rewrite in_bounds_true by (rewrite length_insert; lia).
  destruct (Z.eqb_spec q position) as [->|Hne].
  - rewrite list_lookup_insert_eq by lia. reflexivity.
  - rewrite list_lookup_insert_ne by lia. rewrite Hold. reflexivity.
Qed.

Lemma getServoDegrees_after_set_witness :
  exists w' old,
    setServoDegrees tick_clock 3 55 booted_world = Done tt w' /\
    getServoDegrees 3 booted_world = Done old booted_world /\
    getServoDegrees 3 w' = Done (if 3 =? 3 then 55 else old) w'.
Proof.
  apply (getServoDegrees_after_set tick_clock 3 55 3 booted_world); try lia.
  repeat split; reflexivity.
Defined.

(** * Invariants of dispatch and of the main loop, generically *)

Section DispatchInvariant.

Variable clk : nat -> Z.
Variable I : world -> Prop.

(** [I] does not depend on the serial output, and [setServoDegrees]
    keeps it for every angle within [0,180]. *)
Hypothesis I_tx : forall w v, I w -> I (set_tx v w).
Hypothesis I_set :
  forall position degrees,
    0 <= degrees <= 180 -> preserves I (setServoDegrees clk position degrees).

Lemma Serial_print_keeps s : preserves I (Serial_print s).
Proof. apply preserves_modify. intros w H. apply I_tx, H. Qed.

Lemma Serial_println_keeps s : preserves I (Serial_println s).
Proof. apply preserves_modify. intros w H. apply I_tx, H. Qed.

Lemma Serial_print_dec_keeps v : preserves I (Serial_print_dec v).
Proof. apply preserves_modify. intros w H. apply I_tx, H. Qed.

Lemma setDefaultPositions_keeps : preserves I (setDefaultPositions clk).
Proof.
  unfold setDefaultPositions, for_lt. apply preserves_for_range. intros i.
  apply preserves_bind; [apply preserves_local_read|intros pin].
  apply I_set.
  pose proof (servo_range_degrees pin) as (Hmn & Hmx & H0 & Hle & H180).
  pose proof (getCalculatedDegreesFromPercentage_bounds 50 _ _ Hmn Hmx Hle). lia.
Qed.

Lemma sendCommand_keeps servo value relative :
  preserves I (sendCommand clk servo value relative).
Proof.
  unfold sendCommand.
  pose proof (servo_range_degrees (getControlPin servo)) as (Hmn & Hmx & H0 & Hle & H180).
  destruct (getControlPin servo >? -1).
  - set (v := if getControlPin servo =? PIN_INVERT then _ else _). clearbody v.
    cbv zeta. destruct relative; cbn [negb].
    + apply preserves_bind; [apply preserves_array_read|intros d].
      apply preserves_bind.
      { apply preserves_when, I_set.
        pose proof (getCalculatedDegreesFromPercentage_bounds 50 _ _ Hmn Hmx Hle). lia. }
      intros _.
      apply preserves_bind; [apply preserves_array_read|intros current].
      apply I_set.
      pose proof (getCalculatedRelativeDegrees_bounds v _ _ current Hmn Hmx Hle). lia.
    + apply I_set.
      pose proof (getCalculatedDegreesFromPercentage_bounds v _ _ Hmn Hmx Hle). lia.
  - apply preserves_bind; [apply Serial_print_keeps|intros _].
    apply Serial_println_keeps.
Qed.

Lemma process_command_keeps command : preserves I (process_command clk command).
Proof.
  unfold process_command.
  apply preserves_bind; [apply preserves_deref|intros value_str]. cbv zeta.
  apply preserves_bind; [apply Serial_print_keeps|intros _].
  apply preserves_bind; [apply Serial_print_keeps|intros _].
  apply preserves_bind; [apply preserves_when, Serial_print_keeps|intros _].
  apply preserves_bind; [apply Serial_print_keeps|intros _].
  apply preserves_bind; [apply Serial_print_dec_keeps|intros _].
  apply preserves_bind; [apply Serial_println_keeps|intros _].
  destruct (String.eqb (servo_of command) "DP").
  - apply setDefaultPositions_keeps.
  - apply sendCommand_keeps.
Qed.

Lemma command_loop_keeps fuel : forall command,
  preserves I (command_loop clk fuel command).
Proof.
  induction fuel as [|fuel IH]; intros [[tok rest]|]; cbn [command_loop];
    try apply preserves_ret.
  apply preserves_bind; [apply process_command_keeps|intros _]. apply IH.
Qed.

(** [I] does not depend on the receiver's state either, and the watchdog
    sweep keeps it. *)
Hypothesis I_rx : forall w v, I w -> I (set_rx v w).
Hypothesis I_commands : forall w v, I w -> I (set_commands v w).
Hypothesis I_ndx : forall w v, I w -> I (set_ndx v w).
Hypothesis I_newData : forall w v, I w -> I (set_newData v w).
Hypothesis I_sweep : preserves I (turnOffIdleServos clk).

Lemma processCommands_keeps : preserves I (processCommands clk).
Proof.
  unfold processCommands.
  apply preserves_bind; [apply preserves_get|intros nd].
  destruct nd; [|apply preserves_ret].
  apply preserves_bind; [apply Serial_print_keeps|intros _].
  apply preserves_bind; [apply preserves_get|intros buf].
  apply preserves_bind; [apply preserves_deref_buffer|intros line].
  apply preserves_bind; [apply Serial_println_keeps|intros _].
  apply preserves_bind; [apply command_loop_keeps|intros _].
  apply preserves_modify. intros w H. apply I_newData, H.
Qed.

Lemma recv_byte_keeps rc : preserves I (recv_byte rc).
Proof.
  unfold recv_byte. cbv zeta.
  apply preserves_bind; [apply preserves_get|intros i].
  assert (Hw : forall c, preserves I (array_write commands set_commands i c)).
  { intros c w H. unfold array_write.
    destruct (in_bounds (commands w) i); [apply I_commands, H|exact H]. }
  destruct (negb (Ascii.eqb rc "010")).
  - apply preserves_bind; [apply Hw|intros _].
    apply preserves_modify. intros w H. apply I_ndx, H.
  - apply preserves_bind; [apply Hw|intros _].
    apply preserves_bind; [|intros _]; apply preserves_modify; intros w H;
      [apply I_ndx, H|apply I_newData, H].
Qed.

Lemma recv_loop_keeps avail : preserves I (recv_loop avail).
Proof.
  induction avail as [|rc avail IH]; cbn [recv_loop]; [apply preserves_ret|].
  apply preserves_bind; [apply preserves_get|intros nd].
  destruct nd; [apply preserves_ret|].
  apply preserves_bind; [apply preserves_modify; intros w H; apply I_rx, H|intros _].
  apply preserves_bind; [apply recv_byte_keeps|intros _]. exact IH.
Qed.

Lemma loop_keeps : preserves I (loop clk).
Proof.
  unfold loop, recvWithEndMarker.
  apply preserves_bind.
  { apply preserves_bind; [apply preserves_get|intros avail].
    apply recv_loop_keeps. }
  intros _. apply preserves_bind; [apply processCommands_keeps|intros _].
  apply I_sweep.
Qed.

Lemma run_keeps chunks : preserves I (run clk chunks).
Proof.
  induction chunks as [|bytes chunks IH]; cbn [run]; [apply preserves_ret|].
  apply preserves_bind;
    [apply preserves_modify; intros w H; apply I_rx, H|intros _].
  apply preserves_bind; [apply loop_keeps|intros _]. exact IH.
Qed.

End DispatchInvariant.

(** * Pulses stay within the calibration *)

Lemma map_degrees d mn mx :
  0 <= d <= 180 -> int_range mn -> int_range mx -> mn <= mx ->
  map d 0 180 mn mx = mn + (mx - mn) * d / 180 /\
  mn <= mn + (mx - mn) * d / 180 <= mx.
Proof.
  unfold int_range, map. intros Hd Hmn Hmx Hle.
  assert (Hprod : 0 <= d * (mx - mn) <= 180 * 65535) by nia.
  rewrite (to_long_small (d - 0)) by lia.
  rewrite (to_long_small (mx - mn)) by lia.
  rewrite (to_long_small (180 - 0)) by lia.
  replace (d - 0) with d by lia. replace (180 - 0) with 180 by lia.
  rewrite (to_long_small (d * (mx - mn))) by lia.
  rewrite Z.quot_div_nonneg by lia.
  assert (Hq : 0 <= d * (mx - mn) / 180 <= mx - mn).
  { split; [apply Z.div_pos; lia|].
    apply Z.div_le_upper_bound; nia. }
  rewrite to_long_small by lia.
  rewrite (Z.mul_comm d (mx - mn)) in *. split; lia.
Qed.

Lemma setupServo_spec position mn mx w :
  arrays_ok w -> 0 <= position < 32 ->
  setupServo position mn mx w
  = Done tt (set_servoMaxs (<[Z.to_nat position := mx]> (_servoMaxs w))
               (set_servoMins (<[Z.to_nat position := mn]> (_servoMins w)) w)).
Proof.
  intros (H1 & H2 & H3 & H4) Hp. unfold setupServo.
  replace (position =? -1) with false by (symmetry; apply Z.eqb_neq; lia).
  unfold bind, array_write. rewrite in_bounds_true by lia.
  cbn [_servoMaxs set_servoMins]. rewrite in_bounds_true by lia. reflexivity.
Qed.

(** X9: calibrating a channel and then commanding it: after
    [setupServo(position, mn, mx)] with ordered non-negative [int]
    bounds, [setServoDegrees(position, degrees)] for an angle within
    [0,180] sends the pulse [mn + (mx - mn) * degrees / 180] (truncated)
    to that channel's output; the pulse lies within [mn, mx], and it is
    [mn] at 0 degrees and [mx] at 180 degrees. *)
Theorem calibrate_then_command (clk : nat -> Z) (position mn mx degrees : Z) (w : world) :
  arrays_ok w -> 0 <= position < 32 ->
  0 <= mn -> mn <= mx -> mx <= 32767 -> 0 <= degrees <= 180 ->
  let pulse := mn + (mx - mn) * degrees / 180 in
  let r := (setupServo position mn mx;;; setServoDegrees clk position degrees) w in
  fault_of r = None /\
  pwm (final_world r)
  = pwm w ++ [SetPWM (if position <? 16 then _pwm0 else _pwm1)
                     (if position <? 16 then position else position - 16) 0 pulse] /\
  mn <= pulse <= mx /\
  (degrees = 0 -> pulse = mn) /\
  (degrees = 180 -> pulse = mx).
Proof.
  intros Hok Hp H0 Hle Hmx Hd pulse r.
  destruct (map_degrees degrees mn mx Hd) as [Emap Hb];
    [unfold int_range; lia|unfold int_range; lia|exact Hle|].
  fold pulse in Emap, Hb.
  pose (w1 := set_servoMaxs (<[Z.to_nat position := mx]> (_servoMaxs w))
                (set_servoMins (<[Z.to_nat position := mn]> (_servoMins w)) w)).
  assert (Hok1 : arrays_ok w1).
  { destruct Hok as (H1 & H2 & H3 & H4).
    repeat split; cbn; rewrite ?length_insert; assumption. }
  destruct (setServoDegrees_spec clk position degrees w1 Hok1 Hp)
    as (mn' & mx' & Hmn' & Hmx' & E).
  assert (Er : r = Done tt (after_setServoDegrees clk position degrees mn' mx' w1)).
  { subst r. unfold bind. rewrite (setupServo_spec _ _ _ _ Hok Hp). exact E. }
  destruct Hok as (H1 & H2 & H3 & H4).
  cbn [w1 _servoMins _servoMaxs set_servoMins set_servoMaxs] in Hmn', Hmx'.
  rewrite list_lookup_insert_eq in Hmn' by lia.
  rewrite list_lookup_insert_eq in Hmx' by lia.
  injection Hmn' as <-. injection Hmx' as <-.
  rewrite Er.
  cbn [fault_of final_world pwm after_setServoDegrees set_servoMaxs set_servoMins w1].
  split; [reflexivity|]. split.
  - f_equal. rewrite Emap, to_int_small by (unfold int_range; lia).
    unfold servo_call, to_byte, to_uint16, wrap_unsigned.
    destruct (Z.ltb_spec position 16);
      rewrite !Z.mod_small by (cbn; lia); reflexivity.
  - split; [exact Hb|]. split; intros ->; subst pulse.
    + rewrite Z.mul_0_r, Z.div_0_l by lia. lia.
    + rewrite Z.div_mul by lia. lia.
Qed.

Lemma calibrate_then_command_witness :
  let pulse := 180 + (580 - 180) * 94 / 180 in
  let r := (setupServo 0 180 580;;; setServoDegrees tick_clock 0 94) initial_world in
  fault_of r = None /\
  pwm (final_world r)
  = pwm initial_world ++ [SetPWM (if 0 <? 16 then _pwm0 else _pwm1)
                                 (if 0 <? 16 then 0 else 0 - 16) 0 pulse] /\
  180 <= pulse <= 580 /\
  (94 = 0 -> pulse = 180) /\
  (94 = 180 -> pulse = 580).
Proof.
  apply (calibrate_then_command tick_clock 0 180 580 94 initial_world); try lia.
  repeat split; reflexivity.
Defined.

Lemma calibrated_lookup w p mn mx :
  calibrated w ->
  _servoMins w !! p = Some mn -> _servoMaxs w !! p = Some mx ->
  0 <= mn /\ mn <= mx /\ mx <= 32767.
Proof.
  intros Hc Hmn Hmx. eapply Forall2_lookup_lr in Hc; eauto.
Qed.

Lemma channel_of_servo_call position pulse :
  0 <= position < 32 -> channel_of_call (servo_call position pulse) = position.
Proof.
  intros Hp. unfold servo_call, channel_of_call, to_byte, wrap_unsigned.
  destruct (Z.ltb_spec position 16); cbn [call_board call_num];
    rewrite Z.mod_small by (cbn; lia); lia.
Qed.

Lemma call_off_servo_call position pulse :
  0 <= pulse <= 32767 -> call_off (servo_call position pulse) = pulse.
Proof.
  intros Hp. unfold servo_call, to_uint16, wrap_unsigned.
  destruct (position <? 16); cbn [call_off]; rewrite Z.mod_small by (cbn; lia);
    reflexivity.
Qed.

Section PulseSafety.

Variable clk : nat -> Z.
Variable w0 : world.
Hypothesis w0_calibrated : calibrated w0.

Lemma setServoDegrees_pulses_safe position degrees :
  0 <= degrees <= 180 ->
  preserves (pulses_safe w0) (setServoDegrees clk position degrees).
Proof.
  intros Hd w (Hok & Emins & Emaxs & calls & Hcalls & Hall).
  destruct (Z.lt_ge_cases position 0) as [Hneg|Hpos];
    [|destruct (Z.lt_ge_cases position 32) as [Hin|Hout]].
  - rewrite setServoDegrees_oob by (auto; lia).
    split; [exact Hok|]. split; [exact Emins|]. split; [exact Emaxs|].
    exists calls. split; assumption.
  - destruct (setServoDegrees_spec clk position degrees w Hok ltac:(lia))
      as (mn & mx & Hmn & Hmx & E).
    rewrite E. rewrite Emins in Hmn. rewrite Emaxs in Hmx.
    destruct (calibrated_lookup _ _ _ _ w0_calibrated Hmn Hmx) as (H0 & Hle & H32).
    destruct (map_degrees degrees mn mx Hd) as [Emap Hb];
      [unfold int_range; lia|unfold int_range; lia|exact Hle|].
    split; [|split; [exact Emins|split; [exact Emaxs|]]].
    + destruct Hok as (H1 & H2 & H3 & H4).
      repeat split; cbn; rewrite ?length_insert; assumption.
    + exists (calls ++ [servo_call position (to_int (map degrees 0 180 mn mx))]).
      split; [cbn; rewrite Hcalls, <- app_assoc; reflexivity|].
      apply Forall_app. split; [exact Hall|].
      constructor; [|constructor]. right. exists mn, mx.
      rewrite channel_of_servo_call by lia.
      rewrite Emap, to_int_small by (unfold int_range; lia).
      rewrite call_off_servo_call by lia.
      split; [exact Hmn|]. split; [exact Hmx|exact Hb].
  - rewrite setServoDegrees_oob by (auto; lia).
    split; [exact Hok|]. split; [exact Emins|]. split; [exact Emaxs|].
    exists calls. split; assumption.
Qed.

Lemma turnOffIdleServos_pulses_safe :
  preserves (pulses_safe w0) (turnOffIdleServos clk).
Proof.
  unfold turnOffIdleServos, for_lt. apply preserves_for_range. intros pin.
  apply preserves_bind; [intros w H; exact H|intros now].
  apply preserves_bind; [apply preserves_array_read|intros last].
  apply preserves_when.
  assert (Hoff : forall b num,
            preserves (pulses_safe w0) (setPWM b num 0 4096)).
  { intros b num. apply preserves_modify.
    intros w (Hok & Emins & Emaxs & calls & Hcalls & Hall).
    split; [exact Hok|]. split; [exact Emins|]. split; [exact Emaxs|].
    exists (calls ++ [SetPWM b (to_byte num) (to_uint16 0) (to_uint16 4096)]).
    split; [cbn; rewrite Hcalls, <- app_assoc; reflexivity|].
    apply Forall_app. split; [exact Hall|].
    constructor; [|constructor]. left. reflexivity. }
  apply preserves_bind; [apply preserves_when, Hoff|intros _].
  apply preserves_when, Hoff.
Qed.

Lemma run_pulses_safe chunks : preserves (pulses_safe w0) (run clk chunks).
Proof.
  apply run_keeps; try (intros w v H; exact H).
  - apply setServoDegrees_pulses_safe.
  - apply turnOffIdleServos_pulses_safe.
Qed.

End PulseSafety.

(** X10: from a state whose calibration is well-formed (every channel
    has [0 <= minPulse <= maxPulse <= 32767]), under any clock: for every
    input that the program processes without running into undefined
    behaviour (no DP command, no token without a value field), the
    calibration is unchanged, and every PWM call made either switches an
    output off (pulse 4096) or carries a pulse within the calibrated
    range of the channel it addresses. *)
Theorem pulses_always_within_calibration (clk : nat -> Z) (chunks : list string)
    (w : world) :
  arrays_ok w -> calibrated w ->
  fault_of (run clk chunks w) = None ->
  let w' := final_world (run clk chunks w) in
  _servoMins w' = _servoMins w /\
  _servoMaxs w' = _servoMaxs w /\
  exists calls, pwm w' = pwm w ++ calls /\ Forall (safe_call w) calls.
Proof.
  intros Hok Hcal _ w'.
  assert (H : pulses_safe w w').
  { apply preserves_final; [apply run_pulses_safe, Hcal|].
    split; [exact Hok|]. split; [reflexivity|]. split; [reflexivity|].
    exists []. split; [symmetry; apply app_nil_r|constructor]. }
  destruct H as (_ & Emins & Emaxs & Hcalls).
  split; [exact Emins|]. split; [exact Emaxs|exact Hcalls].
Qed.

Lemma pulses_always_within_calibration_witness :
  let chunks := ["HH90 RB+10" ++ LF; ""; "LI30 RM250 ZZ1" ++ LF]%string in
  let w' := final_world (run tick_clock chunks booted_world) in
  _servoMins w' = _servoMins booted_world /\
  _servoMaxs w' = _servoMaxs booted_world /\
  exists calls, pwm w' = pwm booted_world ++ calls /\ Forall (safe_call booted_world) calls.
Proof.
  apply (pulses_always_within_calibration tick_clock).
  - repeat split; reflexivity.
  - unfold calibrated. vm_compute.
    repeat constructor; discriminate.
  - vm_compute. reflexivity.
Defined.

(** * What command processing leaves alone *)

Lemma setServoDegrees_receiver_untouched clk w0 position degrees :
  preserves (receiver_untouched w0) (setServoDegrees clk position degrees).
Proof.
  unfold setServoDegrees.
  apply preserves_bind; [apply preserves_array_read|intros currentMin].
  apply preserves_bind; [apply preserves_array_read|intros currentMax].
  apply preserves_bind.
  { intros w H. unfold array_write. destruct (in_bounds (_servoPoss w) position); exact H. }
  intros _. apply preserves_bind; [intros w H; exact H|intros now].
  apply preserves_bind.
  { intros w H. unfold array_write. destruct (in_bounds (_lastUpdated w) position); exact H. }
  intros _.
  apply preserves_bind; [|intros _]; apply preserves_when, preserves_modify;
    intros w H; exact H.
Qed.

Lemma processCommands_unfold clk w :
  processCommands clk w
  = if newData w then
      match of_buffer (commands w) with
      | None => Fault OutOfBounds (set_tx (tx w ++ [Print "C:"]) w)
      | Some line =>
          match command_loop clk (String.length line)
                  (strtok (String " " LF) line)
                  (set_tx (tx w ++ [Print "C:"; Println line]) w) with
          | Done _ w' => Done tt (set_newData false w')
          | Fault f w' => Fault f w'
          end
      end
    else Done tt w.
Proof.
  unfold processCommands, bind, get, Serial_print, Serial_println, modify,
    deref_buffer, LF.
  destruct (newData w); [|reflexivity].
  cbn [commands set_tx]. destruct (of_buffer (commands w)) as [line|];
    [|reflexivity].
  unfold ret. cbn [tx set_tx]. rewrite <- app_assoc. reflexivity.
Qed.

(** X11: whenever [processCommands] returns normally, the receiver's
    write index [ndx] and the bytes still queued on the serial port are
    what they were, whatever the line contained, and the line-ready flag
    is down, so that the receiver can take the next line. *)
Theorem processCommands_frame (clk : nat -> Z) (w : world) :
  let r := processCommands clk w in
  fault_of r = None ->
  ndx (final_world r) = ndx w /\
  rx (final_world r) = rx w /\
  newData (final_world r) = false.
Proof.
  intros r. subst r. rewrite processCommands_unfold.
  destruct (newData w) eqn:Hnd; [|cbn; auto].
  destruct (of_buffer (commands w)) as [line|]; [|cbn; discriminate].
  set (w2 := set_tx _ _).
  pose proof (command_loop_keeps clk (receiver_untouched w)
                ltac:(intros ? ? H; exact H)
                (fun position degrees _ =>
                   setServoDegrees_receiver_untouched clk w position degrees)
                (String.length line) (strtok (String " " LF) line)
                w2 ltac:(repeat split)) as Hloop.
  destruct (command_loop clk _ _ w2) as [[] w3|f w3]; cbn; [|discriminate].
  intros _. destruct Hloop as (Hc & Hn & Hr). repeat split; assumption.
Qed.

Lemma processCommands_frame_witness :
  let w := final_world (recvWithEndMarker
             (receive ("HH90 ZZ1 RM-5" ++ LF ++ "RB") booted_world)) in
  let r := processCommands tick_clock w in
  ndx (final_world r) = ndx w /\
  rx (final_world r) = rx w /\
  newData (final_world r) = false.
Proof.
  intros w.
  apply (processCommands_frame tick_clock w).
  vm_compute. reflexivity.
Defined.

(** * The watchdog sweep, exactly *)

Lemma sweep_step clk w0 pin w :
  0 <= pin < 16 ->
  length (_lastUpdated w0) = 32%nat ->
  _lastUpdated w = _lastUpdated w0 ->
  millis_reads w = (millis_reads w0 + Z.to_nat pin)%nat ->
  (now <- millis clk;;
   last <- array_read _lastUpdated pin;;
   when (now >? to_ulong (last + 5000))
     (when (pin <? 16) (setPWM _pwm0 pin 0 4096);;;
      when (pin >=? 16) (setPWM _pwm1 (pin - 16) 0 4096))) w
  = Done tt (set_pwm (pwm w ++ idle_call clk w0 pin)
               (set_millis_reads (S (millis_reads w)) w)).
Proof.
  intros Hpin Hlen Hst Hreads.
  unfold bind at 1, millis.
  destruct (lookup_lt_is_Some_2 (_lastUpdated w0) (Z.to_nat pin)) as [last Hlast];
    [lia|].
  unfold bind at 1, array_read. cbn [_lastUpdated set_millis_reads].
  rewrite Hst, in_bounds_true by lia. rewrite Hlast.
  unfold idle_call. rewrite Hlast, <- Hreads.
  replace (pin <? 16) with true by (symmetry; apply Z.ltb_lt; lia).
  replace (pin >=? 16) with false
    by (symmetry; rewrite Z.geb_leb; apply Z.leb_gt; lia).
  destruct (clk (millis_reads w) >? to_ulong (last + 5000)); cbn [when].
  - unfold bind, setPWM, modify, ret. cbn [pwm set_millis_reads].
    unfold to_byte, wrap_unsigned. rewrite Z.mod_small by (cbn; lia). reflexivity.
  - unfold ret. rewrite app_nil_r. reflexivity.
Qed.

Lemma sweep_range clk w0 : forall n pin w,
  0 <= pin -> pin + Z.of_nat n <= 16 ->
  length (_lastUpdated w0) = 32%nat ->
  _lastUpdated w = _lastUpdated w0 ->
  millis_reads w = (millis_reads w0 + Z.to_nat pin)%nat ->
  for_range n pin (fun pin =>
    now <- millis clk;;
    last <- array_read _lastUpdated pin;;
    when (now >? to_ulong (last + 5000))
      (when (pin <? 16) (setPWM _pwm0 pin 0 4096);;;
       when (pin >=? 16) (setPWM _pwm1 (pin - 16) 0 4096))) w
  = Done tt (set_millis_reads (millis_reads w + n)
               (set_pwm (pwm w ++ flat_map (idle_call clk w0) (seqZ pin (Z.of_nat n))) w)).
Proof.
  induction n as [|n IH]; intros pin w H0 Hn Hlen Hst Hreads.
  - cbn [for_range]. unfold ret. cbn [Z.of_nat]. rewrite seqZ_nil by lia.
    cbn [flat_map]. rewrite app_nil_r, Nat.add_0_r. destruct w; reflexivity.
  - cbn [for_range]. unfold bind at 1.
    rewrite (sweep_step clk w0 pin w) by (auto; lia).
    rewrite IH; cbn [_lastUpdated millis_reads set_pwm set_millis_reads pwm];
      try assumption; try lia.
    rewrite (seqZ_cons pin (Z.of_nat (S n))) by lia.
    replace (Z.pred (Z.of_nat (S n))) with (Z.of_nat n) by lia.
    cbn [flat_map]. unfold set_millis_reads, set_pwm.
    cbn [_servoMins _servoMaxs _servoPoss _lastUpdated commands ndx newData rx tx
         pwm millis_reads].
    rewrite <- app_assoc. replace (S (millis_reads w) + n)%nat
      with (millis_reads w + S n)%nat by lia.
    reflexivity.
Qed.

(** X12: one sweep of [turnOffIdleServos], exactly.  It returns
    normally, takes 16 clock readings (one per output) and changes
    nothing else in the state; for each of the outputs 0..15, in order,
    it makes one call [setPWM(pin, 0, 4096)] on the first board when the
    reading taken for that pin is greater than that channel's timestamp
    plus 5000 (computed modulo 2^32), and no call otherwise. *)
Theorem turnOffIdleServos_exact (clk : nat -> Z) (w : world) :
  arrays_ok w ->
  turnOffIdleServos clk w
  = Done tt (set_millis_reads (millis_reads w + 16)
               (set_pwm (pwm w ++ flat_map (idle_call clk w) (seqZ 0 16)) w)).
Proof.
  intros (_ & _ & _ & H4). unfold turnOffIdleServos, for_lt.
  change (Z.to_nat (16 - 0)) with 16%nat.
  rewrite (sweep_range clk w 16 0 w); try reflexivity; try lia; assumption.
Qed.

Lemma turnOffIdleServos_exact_witness :
  turnOffIdleServos idle_clock booted_world
  = Done tt (set_millis_reads (millis_reads booted_world + 16)
               (set_pwm (pwm booted_world
                         ++ flat_map (idle_call idle_clock booted_world) (seqZ 0 16))
                        booted_world)).
Proof.
  apply (turnOffIdleServos_exact idle_clock booted_world).
  repeat split; reflexivity.
Defined.

(** * The receiver: fragments, pending lines, blank lines *)

Lemma recv_loop_fragments l1 : forall w l2,
  buffer_ok w -> rx w = l1 ->
  recv_loop (rx (final_world (recv_loop l1 w)) ++ l2)
    (set_rx (rx (final_world (recv_loop l1 w)) ++ l2) (final_world (recv_loop l1 w)))
  = recv_loop (l1 ++ l2) (set_rx (l1 ++ l2) w).
Proof.
  induction l1 as [|c l1 IH]; intros w l2 Hok Hrx.
  - cbn [recv_loop]. unfold ret. cbn [final_world]. rewrite Hrx. reflexivity.
  - rewrite (recv_loop_cons c l1 w). destruct (newData w) eqn:Hnd.
    + cbn [final_world]. rewrite Hrx. reflexivity.
    + cbn [app]. rewrite (recv_loop_cons c (l1 ++ l2)).
      cbn [newData set_rx]. rewrite Hnd.
      assert (Hok1 : buffer_ok (set_rx l1 w)) by exact Hok.
      assert (Hok2 : buffer_ok (set_rx (l1 ++ l2) (set_rx (c :: l1 ++ l2) w)))
        by exact Hok.
      destruct Hok as [Hlen Hndx].
      destruct (ascii_dec c endMarker) as [->|Hne].
      * rewrite (recv_byte_end _ Hok1).
        change (recv_byte endMarker
                  (World (_servoMins w) (_servoMaxs w) (_servoPoss w) (_lastUpdated w)
                     (commands w) (ndx w) false (l1 ++ l2) (tx w) (pwm w)
                     (millis_reads w)))
          with (recv_byte endMarker (set_rx (l1 ++ l2) (set_rx (c :: l1 ++ l2) w))).
        rewrite (recv_byte_end _ Hok2).
        etransitivity; [apply IH|reflexivity].
        -- split; cbn; [rewrite length_insert; exact Hlen|unfold numChars; lia].
        -- reflexivity.
      * rewrite (recv_byte_char _ _ Hok1 Hne).
        change (recv_byte c
                  (World (_servoMins w) (_servoMaxs w) (_servoPoss w) (_lastUpdated w)
                     (commands w) (ndx w) false (l1 ++ l2) (tx w) (pwm w)
                     (millis_reads w)))
          with (recv_byte c (set_rx (l1 ++ l2) (set_rx (c :: l1 ++ l2) w))).
        rewrite (recv_byte_char _ _ Hok2 Hne).
        etransitivity; [apply IH|reflexivity].
        -- split; cbn; [rewrite length_insert; exact Hlen|unfold numChars in *; lia].
        -- reflexivity.
Qed.

(** X13: the bytes of the serial stream may arrive in any fragments.
    Calling [recvWithEndMarker] on the bytes present, and calling it
    again once [second] has arrived behind whatever was left in the
    queue, ends exactly where a single call with all the bytes present
    would have ended (same buffer, index, flag and queue). *)
Theorem recvWithEndMarker_fragments (second : list ascii) (w : world) :
  buffer_ok w ->
  let w1 := final_world (recvWithEndMarker w) in
  recvWithEndMarker (set_rx (rx w1 ++ second) w1)
  = recvWithEndMarker (set_rx (rx w ++ second) w).
Proof.
  intros Hok w1. subst w1. unfold recvWithEndMarker, bind, get.
  cbn [rx set_rx]. apply recv_loop_fragments; [exact Hok|reflexivity].
Qed.

Lemma recvWithEndMarker_fragments_witness :
  let w := set_rx ["H"; "H"; "9"]%char booted_world in
  let second := ["0"; "010"; "R"; "B"]%char in
  let w1 := final_world (recvWithEndMarker w) in
  recvWithEndMarker (set_rx (rx w1 ++ second) w1)
  = recvWithEndMarker (set_rx (rx w ++ second) w).
Proof.
  intros w second.
  apply (recvWithEndMarker_fragments second w).
  split; [reflexivity|]. split; vm_compute; [discriminate|reflexivity].
Defined.

Lemma skip_delims_all delims s :
  Forall (fun c => char_in c delims = true) (list_ascii_of_string s) ->
  skip_delims delims s = EmptyString.
Proof.
  induction s as [|c s IH]; cbn; intros H; [reflexivity|].
  apply Forall_cons in H as [Hc Hs]. rewrite Hc. auto.
Qed.

(** X14: a line that holds nothing but spaces (the empty line included)
    is echoed and otherwise ignored: [processCommands] prints [C:] and
    the line, dispatches nothing, changes neither the registry nor the
    PWM outputs, and lowers the line-ready flag. *)
Theorem blank_line_is_only_echoed (clk : nat -> Z) (line : string) (w : world) :
  newData w = true ->
  of_buffer (commands w) = Some line ->
  Forall (fun c => c = " "%char) (list_ascii_of_string line) ->
  processCommands clk w
  = Done tt (set_newData false (set_tx (tx w ++ [Print "C:"; Println line]) w)).
Proof.
  intros Hnd Hbuf Hblank. rewrite processCommands_unfold, Hnd, Hbuf.
  assert (E : strtok (String " " LF) line = None).
  { unfold strtok. rewrite skip_delims_all; [reflexivity|].
    eapply Forall_impl; [exact Hblank|]. cbn. intros c ->. reflexivity. }
  rewrite E. destruct (String.length line); reflexivity.
Qed.

Lemma blank_line_is_only_echoed_witness :
  let w := final_world (recvWithEndMarker
                          (set_rx [" "; " "; " "; "010"]%char booted_world)) in
  processCommands tick_clock w
  = Done tt (set_newData false (set_tx (tx w ++ [Print "C:"; Println "   "]) w)).
Proof.
  intros w.
  apply (blank_line_is_only_echoed tick_clock "   " w); try reflexivity.
  cbn. repeat constructor.
Defined.

(** * Dispatch *)

Lemma code_resolves servo :
  In servo channel_codes ->
  0 <= getControlPin servo < 32 /\ (getControlPin servo >? -1) = true.
Proof.
  intros Hin. cbn in Hin.
  repeat (destruct Hin as [<-|Hin]; [vm_compute; intuition discriminate|]).
  contradiction.
Qed.

(** X15: an absolute command for a code of the table returns normally;
    the target angle, computed from the value (from [100 - value] on the
    inverted channel) lies within the channel's degree range; it is
    stored at the resolved position together with the clock reading,
    nothing is printed, and exactly one PWM call is made. *)
Theorem sendCommand_absolute_effect (clk : nat -> Z) (servo : string) (value : Z)
    (w : world) :
  arrays_ok w -> In servo channel_codes ->
  let pin := getControlPin servo in
  let percent := if pin =? PIN_INVERT then to_int (100 - value) else value in
  let degrees :=
    getCalculatedDegreesFromPercentage percent (getServoMin pin) (getServoMax pin) in
  let r := sendCommand clk servo value false w in
  fault_of r = None /\
  getServoMin pin <= degrees <= getServoMax pin /\
  _servoPoss (final_world r) = <[Z.to_nat pin := degrees]> (_servoPoss w) /\
  _lastUpdated (final_world r)
  = <[Z.to_nat pin := clk (millis_reads w)]> (_lastUpdated w) /\
  tx (final_world r) = tx w /\
  length (pwm (final_world r)) = S (length (pwm w)).
Proof.
  intros Hok Hin pin percent degrees r.
  destruct (code_resolves servo Hin) as [Hpin Hgt]. fold pin in Hpin, Hgt.
  pose proof (servo_range_degrees pin) as (Hmn & Hmx & H0 & Hle & H180).
  assert (Er : r = setServoDegrees clk pin degrees w).
  { subst r. unfold sendCommand. fold pin. rewrite Hgt. reflexivity. }
  destruct (setServoDegrees_spec clk pin degrees w Hok Hpin) as (mn & mx & _ & _ & E).
  rewrite Er, E. cbn.
  split; [reflexivity|]. split.
  { apply getCalculatedDegreesFromPercentage_bounds; assumption. }
  repeat split. rewrite length_app. cbn. lia.
Qed.

Lemma sendCommand_absolute_effect_witness :
  let pin := getControlPin "RM" in
  let percent := if pin =? PIN_INVERT then to_int (100 - 30) else 30 in
  let degrees :=
    getCalculatedDegreesFromPercentage percent (getServoMin pin) (getServoMax pin) in
  let r := sendCommand tick_clock "RM" 30 false booted_world in
  fault_of r = None /\
  getServoMin pin <= degrees <= getServoMax pin /\
  _servoPoss (final_world r) = <[Z.to_nat pin := degrees]> (_servoPoss booted_world) /\
  _lastUpdated (final_world r)
  = <[Z.to_nat pin := tick_clock (millis_reads booted_world)]>
      (_lastUpdated booted_world) /\
  tx (final_world r) = tx booted_world /\
  length (pwm (final_world r)) = S (length (pwm booted_world)).
Proof.
  apply (sendCommand_absolute_effect tick_clock "RM" 30 booted_world).
  - repeat split; reflexivity.
  - cbn. tauto.
Defined.

Lemma getServoDegrees_lookup position w d :
  arrays_ok w -> 0 <= position < 32 ->
  _servoPoss w !! Z.to_nat position = Some d ->
  getServoDegrees position w = Done d w.
Proof.
  intros (_ & _ & H3 & _) Hp Hd. unfold getServoDegrees, array_read.
  rewrite in_bounds_true by lia. rewrite Hd. reflexivity.
Qed.

(** X16: a relative command to a channel that has never been set (and
    whose code is in the table) behaves exactly as the absolute command
    50 followed by the same relative command: the channel is first
    driven to the middle of its range, and the delta is applied from
    there. *)
Theorem relative_on_unset_starts_from_middle (clk : nat -> Z) (servo : string)
    (value : Z) (w : world) :
  arrays_ok w -> In servo channel_codes ->
  _servoPoss w !! Z.to_nat (getControlPin servo) = Some (-1) ->
  sendCommand clk servo value true w
  = (sendCommand clk servo 50 false;;; sendCommand clk servo value true) w.
Proof.
  intros Hok Hin Hunset.
  destruct (code_resolves servo Hin) as [Hpin Hgt].
  pose proof (servo_range_degrees (getControlPin servo)) as (Hmn & Hmx & H0 & Hle & H180).
  set (pin := getControlPin servo) in *.
  set (base := getCalculatedDegreesFromPercentage 50 (getServoMin pin) (getServoMax pin)).
  assert (Hbase : getServoMin pin <= base <= getServoMax pin)
    by (apply getCalculatedDegreesFromPercentage_bounds; assumption).
  destruct (setServoDegrees_spec clk pin base w Hok Hpin) as (mn & mx & _ & _ & E).
  set (w1 := after_setServoDegrees clk pin base mn mx w) in E.
  assert (Hok1 : arrays_ok w1).
  { destruct Hok as (H1 & H2 & H3 & H4).
    repeat split; cbn; rewrite ?length_insert; assumption. }
  assert (Eget : getServoDegrees pin w = Done (-1) w)
    by (apply getServoDegrees_lookup; assumption).
  assert (Eget1 : getServoDegrees pin w1 = Done base w1).
  { apply getServoDegrees_lookup; [exact Hok1|exact Hpin|].
    cbn. apply list_lookup_insert_eq. destruct Hok as (_ & _ & H3 & _). lia. }
  assert (E50 : sendCommand clk servo 50 false w = Done tt w1).
  { unfold sendCommand. fold pin. rewrite Hgt. cbv zeta. cbn [negb].
    replace (if pin =? PIN_INVERT then to_int (100 - 50) else 50) with 50
      by (destruct (pin =? PIN_INVERT); reflexivity).
    exact E. }
  unfold bind at 1. rewrite E50.
  unfold sendCommand. fold pin. rewrite Hgt. cbv zeta. cbn [negb].
  unfold bind. rewrite Eget, Eget1. fold base.
  change (-1 =? -1) with true.
  replace (base =? -1) with false by (symmetry; apply Z.eqb_neq; lia).
  cbn [when]. unfold ret. rewrite E. reflexivity.
Qed.

Lemma relative_on_unset_starts_from_middle_witness :
  sendCommand tick_clock "RB" 10 true booted_world
  = (sendCommand tick_clock "RB" 50 false;;; sendCommand tick_clock "RB" 10 true)
      booted_world.
Proof.
  apply (relative_on_unset_starts_from_middle tick_clock "RB" 10 booted_world).
  - repeat split; reflexivity.
  - cbn. tauto.
  - reflexivity.
Defined.

(** X17: on a registry with its 32 entries per array, dispatch never
    fails: [sendCommand] returns normally for every code, value and
    mode, and so does the handling of every token that has a value field
    and is not the DP command; the arrays keep their size. *)
Theorem dispatch_never_faults (clk : nat -> Z) (command value_str : string) (w : world) :
  arrays_ok w ->
  strpbrk command value_chars = Some value_str ->
  servo_of command <> "DP"%string ->
  (forall servo value relative,
     fault_of (sendCommand clk servo value relative w) = None /\
     arrays_ok (final_world (sendCommand clk servo value relative w))) /\
  fault_of (process_command clk command w) = None /\
  arrays_ok (final_world (process_command clk command w)).
Proof.
  intros Hok Hv Hdp. split.
  - intros servo value relative.
    destruct (sendCommand_returns clk servo value relative w Hok) as (a & w' & E & Hok').
    rewrite E. split; [reflexivity|exact Hok'].
  - destruct (process_command_returns clk command value_str Hv Hdp w Hok)
      as (a & w' & E & Hok').
    rewrite E. split; [reflexivity|exact Hok'].
Qed.

Lemma dispatch_never_faults_witness :
  (forall servo value relative,
     fault_of (sendCommand tick_clock servo value relative booted_world) = None /\
     arrays_ok (final_world (sendCommand tick_clock servo value relative booted_world))) /\
  fault_of (process_command tick_clock "LW-250" booted_world) = None /\
  arrays_ok (final_world (process_command tick_clock "LW-250" booted_world)).
Proof.
  apply (dispatch_never_faults tick_clock "LW-250" "-250" booted_world).
  - repeat split; reflexivity.
  - reflexivity.
  - discriminate.
Defined.

(** * From the receiver to the parser *)

Lemma recv_line_buffer line rest w :
  buffer_ok w -> ndx w = 0 -> newData w = false ->
  Forall (fun c => c <> endMarker) line ->
  take (S (Nat.min (length line) 31))
       (commands (final_world (recv_loop (line ++ endMarker :: rest) w)))
  = take 31 line ++ [NUL].
Proof.
  intros Hok H0 Hnd Hline.
  destruct (recv_loop_data line (endMarker :: rest) w Hok Hnd Hline)
    as (w' & Heq & Hokw & Hndw & Hidx & Htake).
  rewrite Heq, recv_loop_cons, Hndw.
  assert (Hok' : buffer_ok (set_rx rest w')) by exact Hokw.
  rewrite (recv_byte_end _ Hok').
  set (w2 := set_newData _ _).
  assert (E2 : recv_loop rest w2 = Done tt w2).
  { destruct rest; [reflexivity|]. rewrite recv_loop_cons. reflexivity. }
  rewrite E2. cbn [final_world].
  rewrite H0, take_0, app_nil_l in Htake.
  assert (Hn : Z.to_nat (ndx w') = Nat.min (length line) 31).
  { rewrite Hidx, H0. lia. }
  destruct Hokw as [Hlen Hndx]. unfold numChars in Hndx.
  subst w2. cbn [commands set_newData set_ndx set_commands set_rx ndx].
  rewrite Hn in *.
  rewrite (take_S_r _ _ NUL) by (apply list_lookup_insert_eq; lia).
  rewrite take_insert_ge by lia. rewrite Htake. reflexivity.
Qed.

Lemma of_buffer_prefix l : forall rest,
  of_buffer ((l ++ [NUL]) ++ rest) = of_buffer (l ++ [NUL]).
Proof.
  induction l as [|c l IH]; intros rest; cbn; [reflexivity|].
  destruct (Ascii.eqb c NUL); [reflexivity|]. rewrite IH. reflexivity.
Qed.

Lemma of_buffer_no_nul l :
  Forall (fun c => c <> NUL) l ->
  of_buffer (l ++ [NUL]) = Some (string_of_list_ascii l).
Proof.
  induction l as [|c l IH]; intros H; cbn; [reflexivity|].
  apply Forall_cons in H as [Hc Hl].
  apply Ascii.eqb_neq in Hc. rewrite Hc, (IH Hl). reflexivity.
Qed.

(** X18: what the parser reads after a line was received.  Starting at
    a line boundary, once the end marker has arrived the C string held by
    [commands] is the C string of the first 31 bytes of the line: the
    line itself (cut at 31 bytes) when it holds no NUL byte, and
    otherwise only its part before the first NUL. *)
Theorem received_line_as_string (line rest : list ascii) (w : world) :
  buffer_ok w -> ndx w = 0 -> newData w = false ->
  Forall (fun c => c <> endMarker) line ->
  rx w = line ++ endMarker :: rest ->
  let w' := final_world (recvWithEndMarker w) in
  of_buffer (commands w') = of_buffer (take 31 line ++ [NUL]) /\
  (Forall (fun c => c <> NUL) line ->
   of_buffer (commands w') = Some (string_of_list_ascii (take 31 line))).
Proof.
  intros Hok H0 Hnd Hline Hrx w'.
  assert (Ew : w' = final_world (recv_loop (line ++ endMarker :: rest) w)).
  { subst w'. unfold recvWithEndMarker, bind, get. rewrite Hrx. reflexivity. }
  pose proof (recv_line_buffer line rest w Hok H0 Hnd Hline) as Htake.
  rewrite <- Ew in Htake.
  assert (E : of_buffer (commands w') = of_buffer (take 31 line ++ [NUL])).
  { rewrite <- (take_drop (S (Nat.min (length line) 31)) (commands w')).
    rewrite Htake. apply of_buffer_prefix. }
  split; [exact E|].
  intros Hnul. rewrite E. apply of_buffer_no_nul.
  apply Forall_take. exact Hnul.
Qed.

Lemma received_line_as_string_witness :
  let line := list_ascii_of_string "HH10 HV20 HM30 RB40 RT50 RI60 RM70 RR80" in
  let w := set_rx (line ++ endMarker :: []) booted_world in
  let w' := final_world (recvWithEndMarker w) in
  of_buffer (commands w') = of_buffer (take 31 line ++ [NUL]) /\
  (Forall (fun c => c <> NUL) line ->
   of_buffer (commands w') = Some (string_of_list_ascii (take 31 line))).
Proof.
  intros line w.
  apply (received_line_as_string line [] w); try reflexivity.
  - split; [reflexivity|]. split; vm_compute; [discriminate|reflexivity].
  - subst line. cbn. repeat constructor; discriminate.
Defined.

(** * A commanded channel and the watchdog *)

Lemma idle_call_In clk w0 pin c :
  In c (idle_call clk w0 pin) ->
  c = SetPWM _pwm0 pin 0 4096 /\
  exists last, _lastUpdated w0 !! Z.to_nat pin = Some last /\
    clk (millis_reads w0 + Z.to_nat pin)%nat > to_ulong (last + 5000).
Proof.
  unfold idle_call. destruct (_lastUpdated w0 !! Z.to_nat pin) as [last|];
    [|intros []].
  destruct (Z.gtb_spec (clk (millis_reads w0 + Z.to_nat pin)%nat) (to_ulong (last + 5000)));
    [|intros []].
  intros [<-|[]]. split; [reflexivity|]. exists last. split; [reflexivity|lia].
Qed.

(** X19: the grace period of a commanded channel.  After
    [setServoDegrees] has stamped a channel 0..15 with the reading [t]
    (with [t + 5000] below 2^32), the next sweep switches that output
    off exactly when the reading it takes for that pin is greater than
    [t + 5000]: a channel commanded at most 5000 time units ago is left
    alone. *)
Theorem commanded_channel_grace (clk : nat -> Z) (position degrees : Z) (w : world) :
  arrays_ok w -> 0 <= position < 16 ->
  0 <= clk (millis_reads w) -> clk (millis_reads w) + 5000 < 2 ^ 32 ->
  let t := clk (millis_reads w) in
  let w1 := final_world (setServoDegrees clk position degrees w) in
  let w2 := final_world (turnOffIdleServos clk w1) in
  exists calls,
    pwm w2 = pwm w1 ++ calls /\
    (In (SetPWM _pwm0 position 0 4096) calls
     <-> clk (S (millis_reads w) + Z.to_nat position)%nat > t + 5000).
Proof.
  intros Hok Hp Ht0 Ht t w1 w2.
  destruct (setServoDegrees_spec clk position degrees w Hok ltac:(lia))
    as (mn & mx & _ & _ & E).
  assert (E1 : w1 = after_setServoDegrees clk position degrees mn mx w)
    by (subst w1; rewrite E; reflexivity).
  assert (Hok1 : arrays_ok w1).
  { rewrite E1. destruct Hok as (H1 & H2 & H3 & H4).
    repeat split; cbn; rewrite ?length_insert; assumption. }
  assert (Hstamp : _lastUpdated w1 !! Z.to_nat position = Some t).
  { rewrite E1. cbn. apply list_lookup_insert_eq.
    destruct Hok as (_ & _ & _ & H4). lia. }
  assert (Hreads : millis_reads w1 = S (millis_reads w)) by (rewrite E1; reflexivity).
  assert (E2 : turnOffIdleServos clk w1
               = Done tt (set_millis_reads (millis_reads w1 + 16)
                            (set_pwm (pwm w1 ++ flat_map (idle_call clk w1) (seqZ 0 16)) w1))).
  { unfold turnOffIdleServos, for_lt. change (Z.to_nat (16 - 0)) with 16%nat.
    destruct Hok1 as (_ & _ & _ & H4).
    rewrite (sweep_range clk w1 16 0 w1); try reflexivity; try lia; assumption. }
  exists (flat_map (idle_call clk w1) (seqZ 0 16)).
  split; [subst w2; rewrite E2; reflexivity|].
  assert (Hul : to_ulong (t + 5000) = t + 5000).
  { unfold to_ulong, wrap_unsigned. apply Z.mod_small. subst t. lia. }
  rewrite in_flat_map. split.
  - intros (pin & _ & Hin). apply idle_call_In in Hin as (Hc & last & Hlast & Hgt).
    injection Hc as <-. rewrite Hstamp in Hlast. injection Hlast as <-.
    rewrite Hreads, Hul in Hgt. exact Hgt.
  - intros Hgt. exists position. split.
    + apply list_elem_of_In, elem_of_seqZ. lia.
    + unfold idle_call. rewrite Hstamp, Hreads, Hul.
      replace (clk (S (millis_reads w) + Z.to_nat position)%nat >? t + 5000) with true
        by (symmetry; apply Z.gtb_lt; lia).
      left. reflexivity.
Qed.

Lemma commanded_channel_grace_witness :
  let t := idle_clock (millis_reads booted_world) in
  let w1 := final_world (setServoDegrees idle_clock 3 55 booted_world) in
  let w2 := final_world (turnOffIdleServos idle_clock w1) in
  exists calls,
    pwm w2 = pwm w1 ++ calls /\
    (In (SetPWM _pwm0 3 0 4096) calls
     <-> idle_clock (S (millis_reads booted_world) + Z.to_nat 3)%nat > t + 5000).
Proof.
  apply (commanded_channel_grace idle_clock 3 55 booted_world); try lia.
  - repeat split; reflexivity.
  - vm_compute. discriminate.
  - vm_compute. reflexivity.
Defined.
